(** * Sequential chain composition and the agent loop of langchain

    A shallow embedding of [langchain/chains/sequential.py] (the three
    sequential composers) and of the agent executor exercised by
    [tests/unit_tests/agents/test_agent.py], with the properties of the
    specification stated and proved over it.

    Conventions.
    - A Python [str] is a Rocq [string]; one [ascii] stands for one code
      point in the range 0..255.
    - A Python [dict] from names to strings is a [gmap string string]; a
      Python [set] of names is a [gset string].
    - A raised exception is the [Err] case of [result]; [x ← m; k] runs [k]
      only when [m] returned. *)

From Stdlib Require Import Ascii String.
From stdpp Require Import gmap strings list functions.

(** ** Exceptions and results *)

(** The [ValueError]s of [sequential.py], one constructor per message; the
    payload is the set or the length the message prints. *)
Inductive value_error : Type :=
  | MissingInputKeys (missing_vars : gset string)
  | OverlappingKeys (overlapping_keys : gset string)
  | OutputVarsNotFound (missing_vars : gset string)
  | NotOneInput (n : nat)
  | NotOneOutput (n : nat).

Inductive exn : Type :=
  | ValueError (e : value_error)
  | KeyError (k : string)
  | IndexError
  | ParseError (text : string)
  | ToolNotFoundError (name : string)
  | Raised (what : string).

Inductive result (A : Type) : Type :=
  | Ok (a : A)
  | Err (e : exn).
Arguments Ok {A} a.
Arguments Err {A} e.

#[global] Instance result_ret : MRet result := λ A a, Ok a.
#[global] Instance result_bind : MBind result := λ A B f m,
  match m with Ok a => f a | Err e => Err e end.

(** pydantic turns a [ValueError] raised inside a validator into a
    [ValidationError]; any other exception leaves the constructor as it is. *)
Definition is_ValidationError {A} (r : result A) : Prop :=
  ∃ e, r = Err (ValueError e).

(** ** Sub-chains

    [langchain.chains.base.Chain] is the interface of a step: its declared
    keys, the mapping call [chain(inputs, return_only_outputs=True)] and the
    one-string entry point [chain.run(text)].  Both calls belong to the
    sub-chain and are taken as they come. *)
Record Chain : Type := {
  input_keys : list string;
  output_keys : list string;
  call : gmap string string → result (gmap string string);
  run : string → result string
}.

(** The set a Python [set(keys)] builds. *)
Definition set_of (keys : list string) : gset string := list_to_set keys.

(** [{k: known_values[k] for k in keys}]: the first absent key raises
    [KeyError]. *)
Fixpoint select_keys (known_values : gmap string string) (keys : list string)
  : result (gmap string string) :=
  match keys with
  | [] => Ok ∅
  | k :: rest =>
      match known_values !! k with
      | None => Err (KeyError k)
      | Some v => picked ← select_keys known_values rest; Ok (<[k:=v]> picked)
      end
  end.

(** ** Traced computations

    What a call returns together with what it emitted on the way: printed
    lines, callback events, invocations of collaborators.  A raised exception
    keeps the events emitted before it. *)
Definition traced (E A : Type) : Type := (list E * result A)%type.

Definition tret {E A} (a : A) : traced E A := ([], Ok a).
Definition tbind {E A B} (m : traced E A) (k : A → traced E B) : traced E B :=
  match m with
  | (log, Ok a) => let '(log', r) := k a in (log ++ log', r)
  | (log, Err e) => (log, Err e)
  end.
Definition emit {E} (e : E) : traced E unit := ([e], Ok ()).
Definition lift {E A} (r : result A) : traced E A := ([], r).
Definition when {E} (b : bool) (m : traced E unit) : traced E unit :=
  if b then m else tret ().

Declare Scope traced_scope.
Delimit Scope traced_scope with traced.
Notation "x <~ m ; k" := (tbind m (λ x, k))
  (at level 100, m at next level, right associativity) : traced_scope.
Notation "m ;; k" := (tbind m (λ _, k))
  (at level 100, right associativity) : traced_scope.

(** ** SequentialChain *)

Module SequentialChain.

(** The [values] dictionary the pre-validator receives: ["chains"] and
    ["input_variables"] are required fields, ["output_variables"] and
    ["return_all"] may be absent. *)
Record seq_values : Type := {
  chains : list Chain;
  input_variables : list string;
  output_variables : option (list string);
  return_all : option bool
}.

(** Body of the [for chain in chains] loop of [validate_chains]. *)
Definition check_chain (known_variables : gset string) (chain : Chain)
  : result (gset string) :=
  let missing_vars := set_of (input_keys chain) ∖ known_variables in
  if decide (missing_vars = ∅) then
    let overlapping_keys := known_variables ∩ set_of (output_keys chain) in
    if decide (overlapping_keys = ∅) then
      Ok (known_variables ∪ set_of (output_keys chain))
    else Err (ValueError (OverlappingKeys overlapping_keys))
  else Err (ValueError (MissingInputKeys missing_vars)).

Fixpoint check_chains (known_variables : gset string) (cs : list Chain)
  : result (gset string) :=
  match cs with
  | [] => Ok known_variables
  | chain :: rest =>
      known' ← check_chain known_variables chain;
      check_chains known' rest
  end.

(** [known_variables] when the loop of [validate_chains] is left. *)
Definition known_after_loop (values : seq_values) : result (gset string) :=
  check_chains (set_of (input_variables values)) (chains values).

(** [chains[-1]]: the last element, [IndexError] on an empty list. *)
Definition last_chain (cs : list Chain) : result Chain :=
  match list.last cs with
  | Some c => Ok c
  | None => Err IndexError
  end.

Definition with_output_variables (values : seq_values) (ov : list string)
  : seq_values :=
  {| chains := chains values;
     input_variables := input_variables values;
     output_variables := Some ov;
     return_all := return_all values |}.

(** [SequentialChain.validate_chains].  With [return_all] the source stores
    the set [known_variables.difference(input_variables)], which the field
    type then turns into a list in the set's iteration order; [elements]
    plays that part, so only the members of that list are meaningful. *)
Definition validate_chains (values : seq_values) : result seq_values :=
  known_variables ← known_after_loop values;
  match output_variables values with
  | None =>
      output_keys ←
        (if default false (return_all values) then
           Ok (elements (known_variables ∖ set_of (input_variables values)))
         else
           chain ← last_chain (chains values); Ok (output_keys chain));
      Ok (with_output_variables values output_keys)
  | Some declared =>
      let missing_vars := set_of declared ∖ known_variables in
      if decide (missing_vars = ∅) then Ok values
      else Err (ValueError (OutputVarsNotFound missing_vars))
  end.

(** The object pydantic builds once [validate_chains] has returned. *)
Record t : Type := {
  self_chains : list Chain;
  self_input_variables : list string;
  self_output_variables : list string;
  self_return_all : bool;
  self_verbose : bool
}.

Definition construct (values : seq_values) (verbose : bool) : result t :=
  values' ← validate_chains values;
  Ok {| self_chains := chains values';
        self_input_variables := input_variables values';
        self_output_variables := default [] (output_variables values');
        self_return_all := default false (return_all values');
        self_verbose := verbose |}.

(** What [_call] does that can be observed from outside: the call of the
    sub-chain at position [i] with the mapping it is handed, and the line
    printed when verbose. *)
Inductive event : Type :=
  | Invoked (i : nat) (known_values : gmap string string)
  | Printed (i : nat) (outputs : gmap string string).

(** The loop of [_call] from position [i] on; [known_values.update(outputs)]
    lets the new outputs win over what was known. *)
Fixpoint run_chains (verbose : bool) (i : nat) (cs : list Chain)
    (known_values : gmap string string) : traced event (gmap string string) :=
  match cs with
  | [] => tret known_values
  | chain :: rest =>
      (emit (Invoked i known_values);;
       outputs <~ lift (call chain known_values);
       when verbose (emit (Printed i outputs));;
       run_chains verbose (S i) rest (outputs ∪ known_values))%traced
  end.

Definition _call (self : t) (inputs : gmap string string)
  : traced event (gmap string string) :=
  (known_values <~ run_chains (self_verbose self) 0 (self_chains self) inputs;
   lift (select_keys known_values (self_output_variables self)))%traced.

End SequentialChain.

(** ** Strings *)

(** [str.isspace] on one code point below 256. *)
Definition isspace (c : ascii) : bool :=
  let n := nat_of_ascii c in
  ((9 <=? n) && (n <=? 13)) || ((28 <=? n) && (n <=? 32))
  || (n =? 133) || (n =? 160).

Fixpoint lstrip (s : string) : string :=
  match s with
  | EmptyString => EmptyString
  | String c rest => if isspace c then lstrip rest else s
  end.

Fixpoint rstrip (s : string) : string :=
  match s with
  | EmptyString => EmptyString
  | String c rest =>
      match rstrip rest with
      | EmptyString => if isspace c then EmptyString else String c EmptyString
      | kept => String c kept
      end
  end.

(** [str.strip()] without argument. *)
Definition strip (s : string) : string := rstrip (lstrip s).

(** [d[k]] on a dictionary. *)
Definition getitem (d : gmap string string) (k : string) : result string :=
  match d !! k with
  | Some v => Ok v
  | None => Err (KeyError k)
  end.

(** ** SimpleSequentialChain *)

Module SimpleSequentialChain.

Record t : Type := {
  chains : list Chain;
  strip_outputs : bool;
  input_key : string;
  output_key : string;
  verbose : bool
}.

(** The loop of [validate_chains] over [values["chains"]]. *)
Fixpoint check_chains (cs : list Chain) : result unit :=
  match cs with
  | [] => Ok ()
  | chain :: rest =>
      if decide (length (input_keys chain) ≠ 1) then
        Err (ValueError (NotOneInput (length (input_keys chain))))
      else if decide (length (output_keys chain) ≠ 1) then
        Err (ValueError (NotOneOutput (length (output_keys chain))))
      else check_chains rest
  end.

Definition validate_chains (values : t) : result t :=
  _ ← check_chains (chains values); Ok values.

(** [callback_manager.on_text(_input, color=color_mapping[str(i)], end="\n")];
    the colour is the one assigned to step [i]. *)
Inductive event : Type :=
  | OnText (text : string) (i : nat).

Fixpoint run_chains (self : t) (i : nat) (cs : list Chain) (_input : string)
  : traced event string :=
  match cs with
  | [] => tret _input
  | chain :: rest =>
      (_input <~ lift (run chain _input);
       let _input := if strip_outputs self then strip _input else _input in
       when (verbose self) (emit (OnText _input i));;
       run_chains self (S i) rest _input)%traced
  end.

Definition _call (self : t) (inputs : gmap string string)
  : traced event (gmap string string) :=
  (_input <~ lift (getitem inputs (input_key self));
   _input <~ run_chains self 0 (chains self) _input;
   tret {[ output_key self := _input ]})%traced.

(** Modelled from the spec: the public run surface [run(input: string) →
    string] of a chain, whose code ([Chain.run] of the base class) is not
    among the sources: the text is bound to the single input key and the
    single output key is read from the mapping the call returns. *)
Definition run_text (self : t) (text : string) : traced event string :=
  (outputs <~ _call self {[ input_key self := text ]};
   lift (getitem outputs (output_key self)))%traced.

End SimpleSequentialChain.

(** ** SequentailChainWithPreviousContext *)

Module SequentailChainWithPreviousContext.

(** A prompt object.  [template] is the attribute [_call] rewrites;
    [format] is the renderer of the prompt class applied to the template the
    object holds at that moment. *)
Record PromptTemplate : Type := {
  template : string;
  input_variables : list string;
  format : string → gmap string string → result string
}.

Definition set_template (p : PromptTemplate) (new : string) : PromptTemplate :=
  {| template := new;
     input_variables := input_variables p;
     format := format p |}.

(** Prompt objects live in a heap and a sub-chain holds the address of its
    prompt, so that two sub-chains may share one. *)
Abbreviation loc := nat.

(** A step: [chain.prompt], [chain.output_key], and the mapping call, which
    reads the prompt object as it is when the call is made. *)
Record LLMChain : Type := {
  prompt : loc;
  output_key : string;
  invoke : PromptTemplate → gmap string string → result (gmap string string)
}.

Record t : Type := {
  chains : list LLMChain;
  output_variables : list string;
  verbose : bool
}.

(** What outlives a call: the prompt objects and [self.context]. *)
Record state : Type := {
  heap : loc → PromptTemplate;
  context : string
}.

(** One turn of the loop as seen from outside: the template the step ran
    with, the values it was handed, the prompt it rendered and the response
    read from its outputs. *)
Record step : Type := {
  step_index : nat;
  step_template : string;
  step_used_values : gmap string string;
  step_prompt : string;
  step_response : string
}.

Inductive event : Type :=
  | Stepped (s : step)
  | Printed (i : nat) (outputs : gmap string string).

(** State, trace and exceptions together; the state reached when an
    exception is raised is kept. *)
Definition M (A : Type) : Type := state → state * traced event A.

Definition ret {A} (a : A) : M A := λ σ, (σ, tret a).
Definition bind {A B} (m : M A) (k : A → M B) : M B := λ σ,
  match m σ with
  | (σ1, (log, Ok a)) =>
      let '(σ2, (log', r)) := k a σ1 in (σ2, (log ++ log', r))
  | (σ1, (log, Err e)) => (σ1, (log, Err e))
  end.
Definition get : M state := λ σ, (σ, tret σ).
Definition put (σ' : state) : M unit := λ _, (σ', tret ()).
Definition tell (e : event) : M unit := λ σ, (σ, emit e).
Definition try {A} (r : result A) : M A := λ σ, (σ, lift r).

Declare Scope state_scope.
Delimit Scope state_scope with state.
Notation "x <~ m ; k" := (bind m (λ x, k))
  (at level 100, m at next level, right associativity) : state_scope.
Notation "m ;; k" := (bind m (λ _, k))
  (at level 100, right associativity) : state_scope.

(** [chain.prompt.template = self.context + chain.prompt.template] *)
Definition prepend_context (chain : LLMChain) : M PromptTemplate :=
  (σ <~ get;
   let p := heap σ (prompt chain) in
   let p' := set_template p (context σ +:+ template p) in
   put {| heap := <[prompt chain := p']> (heap σ); context := context σ |};;
   ret p')%state.

(** [self.context = prompt + response] *)
Definition set_context (new : string) : M unit :=
  (σ <~ get; put {| heap := heap σ; context := new |})%state.

Fixpoint run_chains (self : t) (i : nat) (cs : list LLMChain)
    (known_values : gmap string string) : M (gmap string string) :=
  match cs with
  | [] => ret known_values
  | chain :: rest =>
      (p <~ prepend_context chain;
       used_values <~ try (select_keys known_values (input_variables p));
       outputs <~ try (invoke chain p used_values);
       prompt_text <~ try (format p (template p) used_values);
       response <~ try (getitem outputs (output_key chain));
       set_context (prompt_text +:+ response);;
       tell (Stepped {| step_index := i;
                        step_template := template p;
                        step_used_values := used_values;
                        step_prompt := prompt_text;
                        step_response := response |});;
       (if verbose self then tell (Printed i outputs) else ret ());;
       run_chains self (S i) rest (outputs ∪ known_values))%state
  end.

Definition _call (self : t) (inputs : gmap string string)
  : M (gmap string string) :=
  (known_values <~ run_chains self 0 (chains self) inputs;
   try (select_keys known_values (output_variables self)))%state.

End SequentailChainWithPreviousContext.

(** ** Text-Action Parser *)

Module Parser.

(** Modelled from the spec: the lines of a text, for the line patterns of
    §4.1: the text split at every newline. *)
Fixpoint split_lines (text : string) : list string :=
  match text with
  | EmptyString => [EmptyString]
  | String c rest =>
      if Ascii.eqb c "010"%char then EmptyString :: split_lines rest
      else match split_lines rest with
           | line :: more => String c line :: more
           | [] => [String c EmptyString]
           end
  end.

(** Modelled from the spec: matching a line against a pattern of §4.1: the
    rest of [s] when [s] starts with [prefix]. *)
Fixpoint strip_prefix (prefix s : string) : option string :=
  match prefix, s with
  | EmptyString, _ => Some s
  | String a prefix', String b s' =>
      if Ascii.eqb a b then strip_prefix prefix' s' else None
  | String _ _, EmptyString => None
  end.

(** Modelled from the spec: the sentinel [SpecialFinish] of §3, the reserved
    name that tells termination from tool dispatch. *)
Definition SpecialFinish : string := "Final Answer".

(** Modelled from the spec: the [Action] and the [AgentFinish] of §3, the
    two decisions a policy can take. *)
Inductive decision : Type :=
  | Action (tool_name tool_input : string)
  | AgentFinish (output : string).

(** Modelled from the spec: the recognizer of §4.1: the first line
    [Action: <name>] directly followed by a line
    [Action Input: <input>]. *)
Fixpoint find_action (lines : list string) : option (string * string) :=
  match lines with
  | l1 :: ((l2 :: _) as rest) =>
      match strip_prefix "Action: " l1, strip_prefix "Action Input: " l2 with
      | Some name, Some input => Some (name, input)
      | _, _ => find_action rest
      end
  | _ => None
  end.

(** Modelled from the spec: the Text-Action Parser of §4.1, whose code is
    not among the sources.  It recognizes a line [Action: <name>] followed by
    a line [Action Input: <input>], the input being the remainder of that
    line; the reserved finish marker as name gives an [AgentFinish] carrying
    the input, any other name a tool-dispatch [Action]; a text without the
    pattern fails with [ParseError]. *)
Definition parse (text : string) : result decision :=
  match find_action (split_lines text) with
  | Some (name, input) =>
      if decide (name = SpecialFinish) then Ok (AgentFinish input)
      else Ok (Action name input)
  | None => Err (ParseError text)
  end.

End Parser.

(** ** Tool Registry *)

Module Registry.

(** Modelled from the spec: the [Tool] of §3: a name, a description and a
    function from strings to strings. *)
Record Tool : Type := {
  name : string;
  description : string;
  func : string → string
}.

(** Modelled from the spec: the lookup of §3, by exact name, in the order of
    the registry. *)
Fixpoint lookup (tools : list Tool) (tool_name : string) : option Tool :=
  match tools with
  | [] => None
  | tool :: rest =>
      if decide (name tool = tool_name) then Some tool
      else lookup rest tool_name
  end.

(** Modelled from the spec: the Tool Registry of §4.2, whose code is not
    among the sources: an ordered sequence of tools resolved by exact,
    case-sensitive name; [invoke(name, input)] fails with
    [ToolNotFoundError] if the name is absent. *)
Definition invoke (tools : list Tool) (tool_name input : string)
  : result string :=
  match lookup tools tool_name with
  | Some tool => Ok (func tool input)
  | None => Err (ToolNotFoundError tool_name)
  end.

End Registry.

(** ** The model of the tests *)

Module FakeListLLM.

Record t : Type := {
  responses : list string;
  i : Z
}.

(** [FakeListLLM(responses=responses)]: the counter starts at -1. *)
Definition new (responses : list string) : t :=
  {| responses := responses; i := (-1)%Z |}.

(** [responses[i]] with Python's indexing: a negative index counts from the
    end. *)
Definition index (l : list string) (i : Z) : result string :=
  let n := Z.of_nat (length l) in
  let j := if (i <? 0)%Z then (n + i)%Z else i in
  if ((0 <=? j) && (j <? n))%Z then
    match l !! Z.to_nat j with
    | Some x => Ok x
    | None => Err IndexError
    end
  else Err IndexError.

(** [_call]: increment the counter, then return the response at it. *)
Definition _call (self : t) (prompt : string) (stop : option (list string))
  : t * result string :=
  let self' := {| responses := responses self; i := (i self + 1)%Z |} in
  (self', index (responses self') (i self')).

End FakeListLLM.

(** ** Event Bus *)

Module EventBus.

(** Modelled from the spec: the identity of an emitting component (§3); the
    components that emit are the executor, the policy as a sub-chain of the
    run, and the model (§4.3). *)
Inductive component : Type := TheExecutor | ThePolicy | TheModel.

(** Modelled from the spec: the eight variants of a CallbackEvent (§3). *)
Inductive tag : Type :=
  | ChainStart | ChainEnd | LLMStart | LLMEnd
  | ToolStart | ToolEnd | Text | Error.

#[global] Instance component_eq_dec : EqDecision component.
Proof. solve_decision. Defined.
#[global] Instance tag_eq_dec : EqDecision tag.
Proof. solve_decision. Defined.

(** Modelled from the spec: the CallbackEvent of §3, whose code is not among
    the sources: a tagged variant over the eight lifecycle tags, carrying the
    emitting component's identity and a payload mapping. *)
Record CallbackEvent : Type := {
  kind : tag;
  emitter : component;
  payload : gmap string string
}.

(** Modelled from the spec: the verbosity gate of §4.3, whose code is not
    among the sources: an explicit per-component flag overrides the
    process-wide default flag; when it is not set, the default governs. *)
Definition enabled (process_wide : bool) (explicit : option bool) : bool :=
  match explicit with
  | Some flag => flag
  | None => process_wide
  end.

(** Modelled from the spec: the counting of §4.3: how many delivered events
    carry tag [k] and come from [c]. *)
Definition count (k : tag) (c : component) (log : list CallbackEvent) : nat :=
  length (filter (λ e, kind e = k ∧ emitter e = c) log).

End EventBus.

(** ** Agent Policy and Agent Executor *)

Module AgentExecutor.
Import EventBus Parser.

(** Modelled from the spec: the states of the executor (§4.5). *)
Inductive status : Type := Running | Finished | StoppedEarly.

(** Modelled from the spec: the AgentExecutionState of §3, whose code is not
    among the sources. *)
Record AgentExecutionState : Type := {
  scratchpad : list (string * string);
  iterations : nat;
  elapsed_time : nat;
  state_status : status
}.

(** Modelled from the spec: what an executor is configured with: the tool
    registry, the two optional limits of §4.5, the process-wide verbosity
    flag and the optional flag of each component (§4.3). *)
Record config : Type := {
  tools : list Registry.Tool;
  max_iterations : option nat;
  max_execution_time : option nat;
  process_verbose : bool;
  executor_verbose : option bool;
  policy_verbose : option bool;
  model_verbose : option bool
}.

(** Modelled from the spec: the fixed message of a run stopped by the
    iteration limit (§4.5). *)
Definition MAX_ITERATIONS_MESSAGE : string :=
  "Agent stopped due to max iterations.".

Section Loop.

(** The collaborators the specification leaves outside: the model (a
    completion function over its own state), the rendering of the prompt, the
    stop sequences, the wording of the synthetic observations and of the
    time-based stop message, and the time each cycle takes. *)
Context {LLM : Type}.
Variable complete : LLM → string → list string → LLM * result string.
Variable render_prompt :
  string → list Registry.Tool → list (string * string) → string.
Variable stop : list string.
Variable unknown_tool_observation : string → string.
Variable format_reminder : string.
Variable TIME_LIMIT_MESSAGE : string.
Variable cycle_time : nat → nat.

Variable cfg : config.

(** Modelled from the spec: an event with its tag, emitter and payload. *)
Definition event (k : tag) (c : component) (payload : gmap string string)
  : CallbackEvent :=
  {| kind := k; emitter := c; payload := payload |}.

(** Modelled from the spec: a component emits only when its verbosity is
    enabled (§4.3): the events [evs] when the flag [explicit] resolves to
    verbose, none otherwise. *)
Definition gated (explicit : option bool) (evs : list CallbackEvent)
  : list CallbackEvent :=
  if enabled (process_verbose cfg) explicit then evs else [].

(** Modelled from the spec: the Agent Policy of §4.4, whose code is not
    among the sources: [decide(original_input, scratchpad)] formats a prompt
    from the input, the tools and the scratchpad, invokes the model once and
    delegates to the parser, whose [ParseError] it lets through.  Per §4.3 it
    emits one ChainStart/ChainEnd pair as a sub-chain of the run and one
    LLMStart/LLMEnd pair.  The text of the model comes back with the
    decision. *)
Definition decide_next (m : LLM) (input : string)
    (scratchpad : list (string * string))
  : LLM * traced CallbackEvent (string * decision) :=
  let prompt := render_prompt input (tools cfg) scratchpad in
  let '(m', completion) := complete m prompt stop in
  (m',
   match completion with
   | Err e =>
       (gated (policy_verbose cfg) [event ChainStart ThePolicy {[ "input" := input ]}]
        ++ gated (model_verbose cfg) [event LLMStart TheModel {[ "prompt" := prompt ]}],
        Err e)
   | Ok text =>
       (gated (policy_verbose cfg) [event ChainStart ThePolicy {[ "input" := input ]}]
        ++ gated (model_verbose cfg)
             [event LLMStart TheModel {[ "prompt" := prompt ]};
              event LLMEnd TheModel {[ "text" := text ]}]
        ++ gated (policy_verbose cfg) [event ChainEnd ThePolicy {[ "text" := text ]}],
        d ← parse text; Ok (text, d))
   end).

(** Modelled from the spec: step 6 of §4.5, whose code is not among the
    sources: the iteration limit, when set, is reached once the counter is
    at it. *)
Definition iterations_reached (st : AgentExecutionState) : bool :=
  match max_iterations cfg with
  | Some limit => bool_decide (limit ≤ iterations st)
  | None => false
  end.

(** Modelled from the spec: step 6 of §4.5: the time limit, when set, is
    passed once the elapsed time exceeds it. *)
Definition time_exceeded (st : AgentExecutionState) : bool :=
  match max_execution_time cfg with
  | Some limit => bool_decide (limit < elapsed_time st)
  | None => false
  end.

(** Modelled from the spec: step 6 of §4.5: the stopping condition looked at
    before an iteration starts, with the message of the run it stops. *)
Definition stopping_condition (st : AgentExecutionState) : option string :=
  if iterations_reached st then Some MAX_ITERATIONS_MESSAGE
  else if time_exceeded st then Some TIME_LIMIT_MESSAGE
  else None.

(** Modelled from the spec: steps 3 to 6 of §4.5: a full cycle ends, the
    pair is appended, the counter and the time accumulator move on. *)
Definition next_cycle (st : AgentExecutionState) (action_text observation : string)
  : AgentExecutionState :=
  {| scratchpad := scratchpad st ++ [(action_text, observation)];
     iterations := S (iterations st);
     elapsed_time := elapsed_time st + cycle_time (iterations st);
     state_status := Running |}.

(** Modelled from the spec: the transition to a terminal state (§4.5). *)
Definition finish (st : AgentExecutionState) (s : status) : AgentExecutionState :=
  {| scratchpad := scratchpad st;
     iterations := iterations st;
     elapsed_time := elapsed_time st;
     state_status := s |}.

(** Modelled from the spec: the counting discipline of §4.3: one
    ToolStart/ToolEnd pair per tool dispatch and one Text event per
    scratchpad append, emitted by the executor. *)
Definition dispatch_events (tool_name tool_input observation : string)
  : list CallbackEvent :=
  gated (executor_verbose cfg)
    [event ToolStart TheExecutor
       {[ "tool" := tool_name; "tool_input" := tool_input ]};
     event ToolEnd TheExecutor {[ "observation" := observation ]};
     event Text TheExecutor {[ "text" := observation ]}].

(** Modelled from the spec: what a run leaves (§3, §4.5): the model's
    state, the executor's state, the events delivered and the result (or the
    exception that escaped). *)
Record outcome : Type := {
  model_after : LLM;
  state_after : AgentExecutionState;
  events : list CallbackEvent;
  returned : result string
}.

(** Modelled from the spec: the control loop of §4.5, whose code is not
    among the sources.  Before an iteration the stopping condition is
    checked; then the policy is asked; a finish ends the run with its
    output; a tool action, known or not, and a [ParseError] each append a
    pair to the scratchpad and close a cycle; any other failure escapes.
    [fuel] bounds the iterations of the model only: [None] is a run cut
    short by it. *)
Fixpoint loop (fuel : nat) (input : string) (m : LLM) (st : AgentExecutionState)
    (log : list CallbackEvent) : option outcome :=
  match stopping_condition st with
  | Some message =>
      Some {| model_after := m; state_after := finish st StoppedEarly;
              events := log; returned := Ok message |}
  | None =>
      match fuel with
      | 0 => None
      | S fuel' =>
          let '(m', (log1, r)) := decide_next m input (scratchpad st) in
          match r with
          | Ok (text, AgentFinish output) =>
              Some {| model_after := m'; state_after := finish st Finished;
                      events := log ++ log1; returned := Ok output |}
          | Ok (text, Action tool_name tool_input) =>
              match Registry.invoke (tools cfg) tool_name tool_input with
              | Ok observation =>
                  loop fuel' input m' (next_cycle st text observation)
                    (log ++ log1
                     ++ dispatch_events tool_name tool_input observation)
              | Err (ToolNotFoundError _) =>
                  let observation := unknown_tool_observation tool_name in
                  loop fuel' input m' (next_cycle st text observation)
                    (log ++ log1
                     ++ dispatch_events tool_name tool_input observation)
              | Err e =>
                  Some {| model_after := m'; state_after := st;
                          events := log ++ log1; returned := Err e |}
              end
          | Err (ParseError text) =>
              loop fuel' input m' (next_cycle st text format_reminder)
                (log ++ log1
                 ++ gated (executor_verbose cfg)
                      [event Text TheExecutor {[ "text" := format_reminder ]}])
          | Err e =>
              Some {| model_after := m'; state_after := st;
                      events := log ++ log1; returned := Err e |}
          end
      end
  end.

(** Modelled from the spec: the state created at the start of [run] (§3). *)
Definition initial_state : AgentExecutionState :=
  {| scratchpad := []; iterations := 0; elapsed_time := 0;
     state_status := Running |}.

(** Modelled from the spec: the public [run(input: string) → string] of the
    executor (§4.3, §4.5, §6), whose code is not among the sources: a fresh
    execution state, one ChainStart/ChainEnd pair around the loop. *)
Definition run (fuel : nat) (m : LLM) (input : string) : option outcome :=
  match loop fuel input m initial_state
          (gated (executor_verbose cfg)
             [event ChainStart TheExecutor {[ "input" := input ]}]) with
  | Some o =>
      Some {| model_after := model_after o;
              state_after := state_after o;
              events :=
                match returned o with
                | Ok output =>
                    events o ++ gated (executor_verbose cfg)
                      [event ChainEnd TheExecutor {[ "output" := output ]}]
                | Err _ => events o
                end;
              returned := returned o |}
  | None => None
  end.

End Loop.

End AgentExecutor.

(** ** The agents of the unit tests *)

Module TestAgent.
Import EventBus AgentExecutor.

Definition nl : string := String "010"%char EmptyString.

(** [_get_agent]: the two responses of the fake model. *)
Definition responses : list string :=
  [ "I'm turning evil" +:+ nl +:+ "Action: BadAction" +:+ nl
      +:+ "Action Input: misalignment";
    "Oh well" +:+ nl +:+ "Action: Final Answer" +:+ nl
      +:+ "Action Input: curses foiled again" ].

Definition tools : list Registry.Tool :=
  [ {| Registry.name := "Search"; Registry.description := "Useful for searching";
       Registry.func := λ x, x |};
    {| Registry.name := "Lookup";
       Registry.description := "Useful for looking up things in a table";
       Registry.func := λ x, x |} ].

(** [_get_agent] with its keyword arguments: built with [verbose=True];
    [max_iterations] is the only keyword the tests pass on. *)
Definition _get_agent (max_iterations : option nat) : config :=
  {| AgentExecutor.tools := tools;
     AgentExecutor.max_iterations := max_iterations;
     max_execution_time := None;
     process_verbose := false;
     executor_verbose := Some true;
     policy_verbose := None;
     model_verbose := None |}.

(** The fake model as the executor's model collaborator. *)
Definition complete (m : FakeListLLM.t) (prompt : string) (stop : list string)
  : FakeListLLM.t * result string :=
  FakeListLLM._call m prompt (Some stop).

(** The responses of the callback tests: one dispatch of ["Search"], then the
    final answer. *)
Definition search_responses : list string :=
  [ "FooBarBaz" +:+ nl +:+ "Action: Search" +:+ nl
      +:+ "Action Input: misalignment";
    "Oh well" +:+ nl +:+ "Action: Final Answer" +:+ nl
      +:+ "Action Input: curses foiled again" ].

Definition search_tools : list Registry.Tool :=
  [ {| Registry.name := "Search"; Registry.description := "Useful for searching";
       Registry.func := λ x, x |} ].

(** The agent of the three callback tests, by the flags each test sets. *)
Definition callback_agent (process_wide : bool) (executor policy model : option bool)
  : config :=
  {| AgentExecutor.tools := search_tools;
     AgentExecutor.max_iterations := None;
     max_execution_time := None;
     process_verbose := process_wide;
     executor_verbose := executor;
     policy_verbose := policy;
     model_verbose := model |}.

End TestAgent.

(** * Vocabulary of the properties

    The notions the statements below are phrased in, and the concrete
    chains and agents they are tried on. *)

(** ** Known variables of the variable-flow chain *)

Section VariableFlowConstructionVocabulary.
Import SequentialChain.

(** The union of the output keys of a list of sub-chains. *)
Definition outputs_union (cs : list Chain) : gset string :=
  ⋃ (set_of ∘ output_keys <$> cs).

(** The known-variable set the validation has built when it reaches the
    sub-chain at position [i]: the declared inputs and the outputs of the
    sub-chains before it. *)
Definition known_before (values : seq_values) (i : nat) : gset string :=
  set_of (input_variables values) ∪ outputs_union (take i (chains values)).

Definition final_known (values : seq_values) : gset string :=
  set_of (input_variables values) ∪ outputs_union (chains values).

(** The sub-chain at position [i] declares an input key that is not known
    there. *)
Definition missing_input_at (values : seq_values) (i : nat) : Prop :=
  ∃ c k, chains values !! i = Some c ∧ k ∈ input_keys c
         ∧ k ∉ known_before values i.

(** The sub-chain at position [i] declares an output key that is already
    known there. *)
Definition colliding_output_at (values : seq_values) (i : nat) : Prop :=
  ∃ c k, chains values !! i = Some c ∧ k ∈ output_keys c
         ∧ k ∈ known_before values i.

(** Some explicitly declared output variable is outside the final set. *)
Definition undeclared_output (values : seq_values) : Prop :=
  ∃ declared k, output_variables values = Some declared ∧ k ∈ declared
                ∧ k ∉ final_known values.

(** A position is in order when no input key is missing and no output key
    collides there. *)
Definition passes (known : gset string) (c : Chain) : Prop :=
  set_of (input_keys c) ⊆ known ∧ known ## set_of (output_keys c).

(** A sub-chain that declares the given keys and returns nothing. *)
Definition declared_chain (ins outs : list string) : Chain :=
  {| input_keys := ins; output_keys := outs;
     call := λ _, Ok ∅; run := λ x, Ok x |}.

(** The second step asks for a variable nobody provides. *)
Definition values_missing_input : seq_values :=
  {| chains := [declared_chain ["a"] ["b"]; declared_chain ["zz"] ["c"]];
     input_variables := ["a"];
     output_variables := None;
     return_all := None |}.

(** Three steps producing [b], [c] and [d] from the input [a]. *)
Definition values_three_steps (all : option bool) : seq_values :=
  {| chains := [declared_chain ["a"] ["b"]; declared_chain ["b"] ["c"];
                declared_chain ["a"; "c"] ["d"]];
     input_variables := ["a"];
     output_variables := None;
     return_all := all |}.

End VariableFlowConstructionVocabulary.

(** ** Environments of the variable-flow chain *)

Section VariableFlowCallVocabulary.
Import SequentialChain.

(** The sub-chain calls of a trace, in the order they were made. *)
Definition invocations (log : list event)
  : list (nat * gmap string string) :=
  omap (λ e, match e with
             | Invoked i known_values => Some (i, known_values)
             | Printed _ _ => None
             end) log.

(** A sub-chain that returns whenever it is handed its declared input keys,
    and then returns its declared output keys and nothing else. *)
Definition responds (c : Chain) : Prop :=
  ∀ env : gmap string string,
    set_of (input_keys c) ⊆ dom env →
    ∃ out, call c env = Ok out ∧ dom out = set_of (output_keys c).

(** The variable environment flowing through the steps: [flows cs env envs
    final] when the sub-chains [cs], started on [env], are handed the
    environments [envs] one after the other, each the previous one with the
    outputs its sub-chain returned merged in, and [final] is the environment
    after the last merge. *)
Inductive flows : list Chain → gmap string string
    → list (gmap string string) → gmap string string → Prop :=
  | flows_done env : flows [] env [] env
  | flows_step c cs env out envs final :
      call c env = Ok out →
      dom out = set_of (output_keys c) →
      flows cs (out ∪ env) envs final →
      flows (c :: cs) env (env :: envs) final.

(** A step that reads [a] and returns [b]. *)
Definition exclaim : Chain :=
  {| input_keys := ["a"]; output_keys := ["b"];
     call := λ env, v ← getitem env "a"; Ok {[ "b" := v +:+ "!" ]};
     run := λ x, Ok (x +:+ "!") |}.

(** A step that reads [a] and [b] and returns [c]. *)
Definition join : Chain :=
  {| input_keys := ["a"; "b"]; output_keys := ["c"];
     call := λ env,
       a ← getitem env "a"; b ← getitem env "b"; Ok {[ "c" := a +:+ b ]};
     run := λ x, Ok x |}.

Definition values_exclaim_join : seq_values :=
  {| chains := [exclaim; join];
     input_variables := ["a"];
     output_variables := Some ["c"; "b"];
     return_all := None |}.

Definition exclaim_join_chain : t :=
  {| self_chains := [exclaim; join];
     self_input_variables := ["a"];
     self_output_variables := ["c"; "b"];
     self_return_all := false;
     self_verbose := true |}.

End VariableFlowCallVocabulary.

(** ** Stages of the single-I/O chain *)

Section SingleIOVocabulary.
Import SimpleSequentialChain.

(** One stage of the pipeline: the sub-chain's function, then the trimming
    when the chain is configured for it. *)
Definition stage (self : t) (f : string → string) (x : string) : string :=
  if strip_outputs self then strip (f x) else f x.

(** The sub-chain [c] computes the total function [f] on strings. *)
Definition computes (c : Chain) (f : string → string) : Prop :=
  ∀ x, run c x = Ok (f x).

(** A step from one key to one key that computes [f]. *)
Definition text_chain (f : string → string) : Chain :=
  {| input_keys := ["text"]; output_keys := ["text"];
     call := λ env, v ← getitem env "text"; Ok {[ "text" := f v ]};
     run := λ x, Ok (f x) |}.

(** A step that declares two inputs. *)
Definition two_inputs_chain : Chain :=
  {| input_keys := ["a"; "b"]; output_keys := ["c"];
     call := λ _, Ok ∅; run := λ x, Ok x |}.

Definition simple (cs : list Chain) (strip_outputs verbose : bool) : t :=
  {| chains := cs; strip_outputs := strip_outputs;
     input_key := "input"; output_key := "output"; verbose := verbose |}.

Definition pad (x : string) : string := " " +:+ x +:+ "  ".
Definition shout (x : string) : string := x +:+ "!".

End SingleIOVocabulary.

(** ** Runs of the agent executor *)

Section AgentRunsVocabulary.
Import EventBus Parser AgentExecutor.

Context {LLM : Type}.
Variable complete : LLM → string → list string → LLM * result string.
Variable render_prompt :
  string → list Registry.Tool → list (string * string) → string.
Variable stop : list string.

(** The first decision dispatches a tool of the registry and the second one
    finishes: what the model answers to the first prompt parses to an action
    on a known tool, and what it answers once that dispatch is on the
    scratchpad parses to a final answer. *)
Definition dispatch_then_finish (cfg : config) (m : LLM) (input : string)
    (output : string) : Prop :=
  ∃ m1 m2 text1 text2 tool_name tool_input tool,
    complete m (render_prompt input (tools cfg) []) stop = (m1, Ok text1)
    ∧ parse text1 = Ok (Action tool_name tool_input)
    ∧ Registry.lookup (tools cfg) tool_name = Some tool
    ∧ complete m1
        (render_prompt input (tools cfg)
           [(text1, Registry.func tool tool_input)]) stop
      = (m2, Ok text2)
    ∧ parse text2 = Ok (AgentFinish output).

(** Every component resolves to the same verbosity [v]. *)
Definition verbosity (cfg : config) (v : bool) : Prop :=
  enabled (process_verbose cfg) (executor_verbose cfg) = v
  ∧ enabled (process_verbose cfg) (policy_verbose cfg) = v
  ∧ enabled (process_verbose cfg) (model_verbose cfg) = v.

(** How many delivered events carry tag [k], whoever emitted them. *)
Definition count_tag (k : tag) (log : list CallbackEvent) : nat :=
  length (filter (λ e, kind e = k) log).

End AgentRunsVocabulary.

(** ** Collaborators of the test runs *)

Section TestRunsVocabulary.
Import EventBus Parser AgentExecutor TestAgent.

(** Collaborators for the concrete runs.  The fake model never reads its
    prompt, so the prompt is just the input. *)
Definition plain_prompt (input : string) (tools : list Registry.Tool)
    (scratchpad : list (string * string)) : string :=
  input.

(** The observation that stands for an unknown tool. *)
Definition not_a_tool (tool_name : string) : string :=
  tool_name +:+ " is not a valid tool, try another one.".

End TestRunsVocabulary.

(** ** Turns of the context-accumulating chain *)

Section PreviousContextVocabulary.
Import SequentailChainWithPreviousContext.

(** The completed turns of a trace, in order. *)
Definition steps (log : list event) : list step :=
  omap (λ e, match e with
             | Stepped s => Some s
             | Printed _ _ => None
             end) log.

(** The context a step found in [self.context] and the template it found in
    its prompt object: what line 155 concatenates. *)
Definition step_context (σ : state) : string := context σ.
Definition step_base (σ : state) (c : LLMChain) : string :=
  template (heap σ (prompt c)).

(** The state a completed step leaves: the prompt object holds the template
    the step ran with, the context is its prompt followed by its response. *)
Definition after (c : LLMChain) (s : step) (σ : state) : state :=
  {| heap := <[prompt c := set_template (heap σ (prompt c)) (step_template s)]>
               (heap σ);
     context := step_prompt s +:+ step_response s |}.

(** [turns cs σ ss]: the steps [ss] are turns of the sub-chains [cs], in
    order, started in state [σ]; the run may have stopped anywhere. *)
Inductive turns : list LLMChain → state → list step → Prop :=
  | turns_stop cs σ : turns cs σ []
  | turns_step c cs σ s ss :
      step_template s = step_context σ +:+ step_base σ c →
      format (heap σ (prompt c)) (step_template s) (step_used_values s)
      = Ok (step_prompt s) →
      turns cs (after c s σ) ss →
      turns (c :: cs) σ (s :: ss).

(** [completes cs σ ss σ']: every sub-chain of [cs] had its turn, and the
    last one left the state [σ']. *)
Inductive completes : list LLMChain → state → list step → state → Prop :=
  | completes_nil σ : completes [] σ [] σ
  | completes_step c cs σ s ss σ' :
      step_template s = step_context σ +:+ step_base σ c →
      format (heap σ (prompt c)) (step_template s) (step_used_values s)
      = Ok (step_prompt s) →
      completes cs (after c s σ) ss σ' →
      completes (c :: cs) σ (s :: ss) σ'.

(** The state in which the turn at position [i] starts. *)
Fixpoint state_before (cs : list LLMChain) (ss : list step) (σ : state)
    (i : nat) {struct i} : state :=
  match i, cs, ss with
  | S i', c :: cs', s :: ss' => state_before cs' ss' (after c s σ) i'
  | _, _, _ => σ
  end.

(** The text accumulated by the steps [ss], each contributing what its own
    template rendered to, [own s], and then its response. *)
Definition accumulated (own : step → string) (ss : list step) : string :=
  foldr (λ s acc, own s +:+ step_response s +:+ acc) "" ss.

(** A renderer in the style of [str.format] for the examples: [{name}] is
    replaced by the value of [name]. *)
Fixpoint fill_from (t : string) (values : gmap string string)
    (name : option string) : result string :=
  match t with
  | EmptyString =>
      match name with
      | None => Ok EmptyString
      | Some _ => Err (Raised "expected '}' before end of string")
      end
  | String ch rest =>
      match name with
      | None =>
          if Ascii.eqb ch "{"%char then fill_from rest values (Some EmptyString)
          else r ← fill_from rest values None; Ok (String ch r)
      | Some n =>
          if Ascii.eqb ch "}"%char then
            v ← getitem values n; r ← fill_from rest values None; Ok (v +:+ r)
          else fill_from rest values (Some (n +:+ String ch EmptyString))
      end
  end.

Definition fill_placeholders (t : string) (values : gmap string string)
  : result string :=
  fill_from t values None.

Definition example_prompt (t : string) (vars : list string) : PromptTemplate :=
  {| template := t; input_variables := vars; format := fill_placeholders |}.

Definition example_heap (l : loc) : PromptTemplate :=
  match l with
  | 0 => example_prompt "Ask {q}? " ["q"]
  | 1 => example_prompt "Then {a1}? " ["a1"]
  | _ => example_prompt "Finally: " []
  end.

(** A step whose model answers [answer] to whatever prompt renders. *)
Definition answering (l : loc) (key answer : string) : LLMChain :=
  {| prompt := l; output_key := key;
     invoke := λ p used,
       _ ← format p (template p) used; Ok {[ key := answer ]} |}.

Definition example_chain : t :=
  {| chains := [answering 0 "a1" "yes."; answering 1 "a2" "no.";
                answering 2 "a3" "done."];
     output_variables := ["a3"];
     verbose := false |}.

Definition fresh : state := {| heap := example_heap; context := "" |}.

Definition example_third_step : step :=
  {| step_index := 2;
     step_template := "Ask why? yes.Then yes.? no.Finally: ";
     step_used_values := ∅;
     step_prompt := "Ask why? yes.Then yes.? no.Finally: ";
     step_response := "done." |}.

Definition example_steps : list step :=
  [ {| step_index := 0; step_template := "Ask {q}? ";
       step_used_values := {[ "q" := "why" ]};
       step_prompt := "Ask why? "; step_response := "yes." |};
    {| step_index := 1; step_template := "Ask why? yes.Then {a1}? ";
       step_used_values := {[ "a1" := "yes." ]};
       step_prompt := "Ask why? yes.Then yes.? "; step_response := "no." |};
    example_third_step ].

(** What the own template of each example step rendered to. *)
Definition example_own (s : step) : string :=
  match step_index s with
  | 0 => "Ask why? "
  | 1 => "Then yes.? "
  | _ => "Finally: "
  end.

End PreviousContextVocabulary.

(** ** Pipelines under construction *)

Section ConstructionEdgesVocabulary.
Import SequentialChain.

(** The values with one more sub-chain at the end of the list. *)
Definition with_appended (values : seq_values) (c : Chain) : seq_values :=
  {| chains := chains values ++ [c];
     input_variables := input_variables values;
     output_variables := output_variables values;
     return_all := return_all values |}.

(** Two sub-chains that declare the same keys, up to order and repetition. *)
Definition same_keys (c c' : Chain) : Prop :=
  set_of (input_keys c) = set_of (input_keys c')
  ∧ set_of (output_keys c) = set_of (output_keys c').

(** Values without sub-chains. *)
Definition values_no_chains (all : option bool) : seq_values :=
  {| chains := []; input_variables := ["a"];
     output_variables := None; return_all := all |}.

End ConstructionEdgesVocabulary.

Section ConstructionLawsVocabulary.
Import SequentialChain.

(** The three example steps with their key lists reordered and repeated. *)
Definition values_three_steps_shuffled : seq_values :=
  {| chains := [declared_chain ["a"; "a"] ["b"]; declared_chain ["b"] ["c"; "c"];
                declared_chain ["c"; "a"; "c"] ["d"]];
     input_variables := ["a"; "a"];
     output_variables := None;
     return_all := None |}.

End ConstructionLawsVocabulary.

(** ** Calls that fail, calls that print *)

Section CallEdgesVocabulary.
Import SequentialChain.

(** [merges cs env envs outs final]: the sub-chains [cs], started on [env],
    return the mappings [outs] one after the other when handed the
    environments [envs], each the previous one updated with what its
    sub-chain returned; [final] is the environment after the last update.
    Nothing is asked of what the sub-chains return. *)
Inductive merges : list Chain → gmap string string
    → list (gmap string string) → list (gmap string string)
    → gmap string string → Prop :=
  | merges_nil env : merges [] env [] [] env
  | merges_cons c cs env out envs outs final :
      call c env = Ok out →
      merges cs (out ∪ env) envs outs final →
      merges (c :: cs) env (env :: envs) (out :: outs) final.

(** The lines a trace printed: the position and the outputs shown. *)
Definition printed (log : list event) : list (nat * gmap string string) :=
  omap (λ e, match e with
             | Printed i outputs => Some (i, outputs)
             | Invoked _ _ => None
             end) log.

(** The same object with the verbose flag set to [b]. *)
Definition with_verbose (self : t) (b : bool) : t :=
  {| self_chains := self_chains self;
     self_input_variables := self_input_variables self;
     self_output_variables := self_output_variables self;
     self_return_all := self_return_all self;
     self_verbose := b |}.

(** A step that raises whatever it is handed. *)
Definition broken : Chain :=
  {| input_keys := ["b"]; output_keys := ["z"];
     call := λ _, Err (Raised "boom"); run := λ _, Err (Raised "boom") |}.

(** An object put together without validation, asking for a variable that
    no step produces. *)
Definition exclaim_join_unchecked : t :=
  {| self_chains := [exclaim; join];
     self_input_variables := ["a"];
     self_output_variables := ["b"; "nowhere"; "c"];
     self_return_all := false;
     self_verbose := false |}.

Definition exclaim_broken_join : t :=
  {| self_chains := [exclaim; broken; join];
     self_input_variables := ["a"];
     self_output_variables := ["c"];
     self_return_all := false;
     self_verbose := true |}.

End CallEdgesVocabulary.

Section CallLawsVocabulary.
Import SequentialChain.

(** The same object over another list of sub-chains. *)
Definition with_chains (self : t) (cs : list Chain) : t :=
  {| self_chains := cs;
     self_input_variables := self_input_variables self;
     self_output_variables := self_output_variables self;
     self_return_all := self_return_all self;
     self_verbose := self_verbose self |}.

End CallLawsVocabulary.

(** ** Values along the single-I/O pipeline *)

Section PipelineVocabulary.
Import SimpleSequentialChain.

(** The value after each stage of a pipeline of functions started on [x]. *)
Fixpoint stage_values (self : t) (fs : list (string → string)) (x : string)
  : list string :=
  match fs with
  | [] => []
  | f :: rest => stage self f x :: stage_values self rest (stage self f x)
  end.

(** One text event per value, numbered from [i] on. *)
Fixpoint text_events (i : nat) (values : list string) : list event :=
  match values with
  | [] => []
  | v :: rest => OnText v i :: text_events (S i) rest
  end.

(** A string with no whitespace at either end. *)
Definition trimmed (s : string) : Prop :=
  (∀ c rest, s = String c rest → isspace c = false)
  ∧ (∀ pre c, s = pre +:+ String c EmptyString → isspace c = false).

(** A step that raises on every text. *)
Definition broken_text : Chain :=
  {| input_keys := ["text"]; output_keys := ["text"];
     call := λ _, Err (Raised "boom"); run := λ _, Err (Raised "boom") |}.

End PipelineVocabulary.

(** ** Failing calls of the context-accumulating chain *)

Section PreviousContextEdgesVocabulary.
Import SequentailChainWithPreviousContext.

(** A state whose context was left by an earlier call. *)
Definition stale : state := {| heap := example_heap; context := "old " |}.

End PreviousContextEdgesVocabulary.

(** ** Replaying the fake model *)

Section FakeModelVocabulary.

(** What the model returns when called once per prompt, in order. *)
Fixpoint replay (self : FakeListLLM.t) (prompts : list string)
  : list (result string) :=
  match prompts with
  | [] => []
  | prompt :: rest =>
      let '(self', r) := FakeListLLM._call self prompt None in
      r :: replay self' rest
  end.

(** The model after those calls. *)
Fixpoint after_calls (self : FakeListLLM.t) (prompts : list string)
  : FakeListLLM.t :=
  match prompts with
  | [] => self
  | prompt :: rest =>
      after_calls (FakeListLLM._call self prompt None).1 rest
  end.

(** The response at position [k], or the exception past the end. *)
Definition response_at (responses : list string) (k : nat) : result string :=
  match responses !! k with
  | Some r => Ok r
  | None => Err IndexError
  end.

End FakeModelVocabulary.

(** ** Shared prompt objects *)

Section SharedPromptVocabulary.
Import SequentailChainWithPreviousContext.

(** Two steps over the same prompt object. *)
Definition sharing_chain : t :=
  {| chains := [answering 2 "a1" "yes."; answering 2 "a2" "no."];
     output_variables := ["a2"];
     verbose := false |}.

End SharedPromptVocabulary.

(** ** A response that holds a placeholder *)

Section RenderedAgainVocabulary.
Import SequentailChainWithPreviousContext.

(** Three prompts, the first two over the variable [q]. *)
Definition placeholder_heap (l : loc) : PromptTemplate :=
  match l with
  | 0 => example_prompt "Ask {q}? " ["q"]
  | 1 => example_prompt "Then {q}? " ["q"]
  | _ => example_prompt "Finally: " []
  end.

(** The model answers the first prompt with the text [{q}]. *)
Definition placeholder_chain : t :=
  {| chains := [answering 0 "a1" "{q}"; answering 1 "a2" "no.";
                answering 2 "a3" "done."];
     output_variables := ["a3"];
     verbose := false |}.

Definition placeholder_fresh : state :=
  {| heap := placeholder_heap; context := "" |}.

(** What the own template of each of these steps renders to. *)
Definition placeholder_own (s : step) : string :=
  match step_index s with
  | 0 => "Ask why? "
  | 1 => "Then why? "
  | _ => "Finally: "
  end.

Definition placeholder_steps : list step :=
  [ {| step_index := 0; step_template := "Ask {q}? ";
       step_used_values := {[ "q" := "why" ]};
       step_prompt := "Ask why? "; step_response := "{q}" |};
    {| step_index := 1; step_template := "Ask why? {q}Then {q}? ";
       step_used_values := {[ "q" := "why" ]};
       step_prompt := "Ask why? whyThen why? "; step_response := "no." |};
    {| step_index := 2;
       step_template := "Ask why? whyThen why? no.Finally: ";
       step_used_values := ∅;
       step_prompt := "Ask why? whyThen why? no.Finally: ";
       step_response := "done." |} ].

End RenderedAgainVocabulary.

(** * Properties *)

(** ** Construction of the variable-flow chain *)

Section VariableFlowConstruction.
Import SequentialChain.

Lemma outputs_union_cons c cs :
  outputs_union (c :: cs) = set_of (output_keys c) ∪ outputs_union cs.
Proof. reflexivity. Qed.

Lemma check_chain_Ok known c known' :
  check_chain known c = Ok known' ↔
  set_of (input_keys c) ⊆ known ∧ known ## set_of (output_keys c)
  ∧ known' = known ∪ set_of (output_keys c).
Proof.
  unfold check_chain.
  destruct (decide (set_of (input_keys c) ∖ known = ∅)) as [Hm|Hm];
    [destruct (decide (known ∩ set_of (output_keys c) = ∅)) as [Ho|Ho]|].
  - split.
    + intros Heq. injection Heq as <-. split; [set_solver|]. split; [set_solver|done].
    + intros (_ & _ & ->). done.
  - split; [done|]. intros (_ & Hd & _). set_solver.
  - split; [done|]. intros (Hs & _). set_solver.
Qed.

Lemma check_chain_cases known c :
  check_chain known c = Ok (known ∪ set_of (output_keys c))
  ∨ check_chain known c
    = Err (ValueError (MissingInputKeys (set_of (input_keys c) ∖ known)))
      ∧ set_of (input_keys c) ∖ known ≠ ∅
  ∨ check_chain known c
    = Err (ValueError (OverlappingKeys (known ∩ set_of (output_keys c))))
      ∧ set_of (input_keys c) ⊆ known
      ∧ known ∩ set_of (output_keys c) ≠ ∅.
Proof.
  unfold check_chain. repeat case_decide; auto.
  right; right. split; [done|]. split; [set_solver | done].
Qed.

(** The loop, unrolled up to a position all of whose predecessors pass. *)
Lemma check_chains_prefix known cs i c :
  cs !! i = Some c →
  (∀ j cj, j < i → cs !! j = Some cj →
     set_of (input_keys cj) ⊆ known ∪ outputs_union (take j cs)
     ∧ (known ∪ outputs_union (take j cs)) ## set_of (output_keys cj)) →
  check_chains known cs
  = (k ← check_chain (known ∪ outputs_union (take i cs)) c;
     check_chains k (drop (S i) cs)).
Proof.
  revert known i. induction cs as [|c0 cs IH]; intros known i Hi Hpre; [done|].
  destruct i as [|i]; simpl in *.
  - injection Hi as ->. unfold outputs_union. simpl.
    by rewrite (right_id_L ∅ (∪)).
  - destruct (Hpre 0 c0 ltac:(lia) eq_refl) as [Hin Hout].
    unfold outputs_union in Hin, Hout. simpl in Hin, Hout.
    rewrite (right_id_L ∅ (∪)) in Hin, Hout.
    assert (check_chain known c0 = Ok (known ∪ set_of (output_keys c0))) as ->
      by (apply check_chain_Ok; done).
    simpl. rewrite (IH _ i Hi).
    + rewrite outputs_union_cons. by rewrite (assoc_L (∪)).
    + intros j cj Hj Hcj. specialize (Hpre (S j) cj ltac:(lia) Hcj).
      simpl in Hpre. rewrite outputs_union_cons in Hpre.
      by rewrite (assoc_L (∪)) in Hpre.
Qed.

Lemma check_chains_Ok known cs known' :
  check_chains known cs = Ok known' ↔
  known' = known ∪ outputs_union cs
  ∧ ∀ i c, cs !! i = Some c →
      set_of (input_keys c) ⊆ known ∪ outputs_union (take i cs)
      ∧ (known ∪ outputs_union (take i cs)) ## set_of (output_keys c).
Proof.
  revert known. induction cs as [|c0 cs IH]; intros known; simpl.
  - unfold outputs_union; simpl. rewrite (right_id_L ∅ (∪)).
    split; [intros [= <-]; by split | intros [-> _]; done].
  - destruct (check_chain known c0) as [k|e] eqn:Hc; simpl.
    + apply check_chain_Ok in Hc as (Hin & Hout & ->).
      rewrite IH, outputs_union_cons, (assoc_L (∪)). split.
      * intros [-> Hall]. split; [done|]. intros [|i] c Hi; simpl in *.
        -- injection Hi as <-. unfold outputs_union; simpl.
           rewrite (right_id_L ∅ (∪)). done.
        -- rewrite outputs_union_cons, (assoc_L (∪)). by apply Hall.
      * intros [-> Hall]. split; [done|]. intros i c Hi.
        specialize (Hall (S i) c Hi). simpl in Hall.
        by rewrite outputs_union_cons, (assoc_L (∪)) in Hall.
    + split; [done|]. intros [_ Hall].
      destruct (Hall 0 c0 eq_refl) as [Hin Hout].
      unfold outputs_union in Hin, Hout; simpl in Hin, Hout.
      rewrite (right_id_L ∅ (∪)) in Hin, Hout.
      assert (check_chain known c0 = Ok (known ∪ set_of (output_keys c0)))
        by (apply check_chain_Ok; done).
      congruence.
Qed.

(** The loop raises nothing but [ValueError]. *)
Lemma check_chains_Err known cs e :
  check_chains known cs = Err e → ∃ v, e = ValueError v.
Proof.
  revert known. induction cs as [|c0 cs IH]; intros known; simpl; [done|].
  destruct (check_chain_cases known c0) as [-> | [[-> _] | [-> _]]]; simpl.
  - apply IH.
  - intros [= <-]. eauto.
  - intros [= <-]. eauto.
Qed.

Lemma passes_iff known c :
  passes known c ↔
  ¬ (∃ k, k ∈ input_keys c ∧ k ∉ known) ∧ ¬ (∃ k, k ∈ output_keys c ∧ k ∈ known).
Proof.
  unfold passes, set_of. split.
  - intros [Hin Hout]. split; intros (k & Hk & Hk').
    + apply Hk', Hin. by apply elem_of_list_to_set.
    + apply (Hout k); [done|]. by apply elem_of_list_to_set.
  - intros [Hin Hout]. split.
    + intros k Hk%elem_of_list_to_set.
      destruct (decide (k ∈ known)); [done|]. destruct Hin; eauto.
    + intros k Hk Hk'%elem_of_list_to_set. apply Hout; eauto.
Qed.

Lemma check_chains_fails known cs :
  (∃ i c k, cs !! i = Some c
     ∧ ((k ∈ input_keys c ∧ k ∉ known ∪ outputs_union (take i cs))
        ∨ (k ∈ output_keys c ∧ k ∈ known ∪ outputs_union (take i cs))))
  ↔ ∃ v, check_chains known cs = Err (ValueError v).
Proof.
  revert known. induction cs as [|c0 cs IH]; intros known; simpl.
  - split; [intros (i & c & k & Hi & _); done | intros [v Hv]; done].
  - destruct (check_chain known c0) as [k0|e] eqn:Hc; simpl.
    + apply check_chain_Ok in Hc as (Hin & Hout & ->).
      rewrite <- IH. split.
      * intros (i & c & k & Hi & Hbad). destruct i as [|i]; simpl in *.
        -- injection Hi as <-. exfalso.
           unfold outputs_union in Hbad; simpl in Hbad.
           rewrite (right_id_L ∅ (∪)) in Hbad.
           assert (passes known c0) as Hp by done.
           apply passes_iff in Hp as [H1 H2].
           destruct Hbad as [Hb|Hb]; [apply H1 | apply H2]; eauto.
        -- exists i, c, k. split; [done|].
           rewrite outputs_union_cons, (assoc_L (∪)) in Hbad. done.
      * intros (i & c & k & Hi & Hbad). exists (S i), c, k. split; [done|].
        simpl. by rewrite outputs_union_cons, (assoc_L (∪)).
    + split; [|intros _].
      * intros _. destruct (check_chain_cases known c0) as [H|[[H _]|[H _]]];
          rewrite H in Hc; [done| |]; injection Hc as <-; eauto.
      * assert (¬ passes known c0) as Hnp.
        { intros [Hin Hout].
          assert (check_chain known c0 = Ok (known ∪ set_of (output_keys c0)))
            by (apply check_chain_Ok; done). congruence. }
        rewrite passes_iff in Hnp.
        destruct (decide (set_of (input_keys c0) ∖ known = ∅)) as [Hm|Hm].
        -- destruct (decide (known ∩ set_of (output_keys c0) = ∅)) as [Ho|Ho].
           ++ destruct Hnp. split; intros (k & Hk & Hk').
              ** apply (elem_of_list_to_set (C:=gset string)) in Hk.
                 assert (k ∈ set_of (input_keys c0) ∖ known) as Hx
                   by (apply elem_of_difference; done).
                 rewrite Hm in Hx. by apply not_elem_of_empty in Hx.
              ** apply (elem_of_list_to_set (C:=gset string)) in Hk.
                 assert (k ∈ known ∩ set_of (output_keys c0)) as Hx
                   by (apply elem_of_intersection; done).
                 rewrite Ho in Hx. by apply not_elem_of_empty in Hx.
           ++ apply set_choose_L in Ho as [k Hk].
              apply elem_of_intersection in Hk as [Hk1 Hk2].
              apply elem_of_list_to_set in Hk2.
              exists 0, c0, k. split; [done|]. right. split; [done|].
              unfold outputs_union; simpl. by rewrite (right_id_L ∅ (∪)).
        -- apply set_choose_L in Hm as [k Hk].
           apply elem_of_difference in Hk as [Hk1 Hk2].
           apply elem_of_list_to_set in Hk1.
           exists 0, c0, k. split; [done|]. left. split; [done|].
           unfold outputs_union; simpl. by rewrite (right_id_L ∅ (∪)).
Qed.

Lemma known_after_loop_Ok values known :
  known_after_loop values = Ok known ↔
  known = final_known values
  ∧ ∀ i, ¬ missing_input_at values i ∧ ¬ colliding_output_at values i.
Proof.
  unfold known_after_loop. rewrite check_chains_Ok. unfold final_known.
  split; intros [-> Hall]; (split; [done|]).
  - intros i. split; intros (c & k & Hi & Hk & Hk');
      destruct (Hall i c Hi) as [Hin Hout].
    + apply Hk', Hin. by apply elem_of_list_to_set.
    + apply (Hout k); [done|]. by apply elem_of_list_to_set.
  - intros i c Hi. apply passes_iff. destruct (Hall i) as [Hm Hc].
    split; intros (k & Hk & Hk'); [apply Hm | apply Hc]; by exists c, k.
Qed.

Lemma known_after_loop_fails values :
  (∃ i, missing_input_at values i ∨ colliding_output_at values i)
  ↔ is_ValidationError (known_after_loop values).
Proof.
  unfold is_ValidationError, known_after_loop. rewrite <- check_chains_fails.
  split.
  - intros (i & [(c & k & Hi & Hk)|(c & k & Hi & Hk)]); exists i, c, k; eauto.
  - intros (i & c & k & Hi & [Hk|Hk]); exists i; [left|right]; by exists c, k.
Qed.

(** C1. Construction of the variable-flow chain validates in order.  It
    fails with a validation error exactly when some sub-chain declares an
    input key that is not yet known, or an output key that is already known,
    or when a declared output variable is outside the final known set.  The
    first sub-chain out of order decides the error, a missing input before a
    colliding output; with every sub-chain in order a declared output outside
    the final set is reported.  Whenever construction succeeds the known set
    the loop ends with is the declared inputs united with the output keys of
    all sub-chains. *)
Theorem validate_chains_in_order (values : seq_values) :
  (is_ValidationError (validate_chains values) ↔
     (∃ i, missing_input_at values i ∨ colliding_output_at values i)
     ∨ undeclared_output values)
  ∧ (∀ i c, chains values !! i = Some c →
       (∀ j, j < i →
          ¬ missing_input_at values j ∧ ¬ colliding_output_at values j) →
       (missing_input_at values i →
          validate_chains values
          = Err (ValueError (MissingInputKeys
                   (set_of (input_keys c) ∖ known_before values i))))
       ∧ (¬ missing_input_at values i → colliding_output_at values i →
          validate_chains values
          = Err (ValueError (OverlappingKeys
                   (known_before values i ∩ set_of (output_keys c))))))
  ∧ (∀ declared,
       (∀ i, ¬ missing_input_at values i ∧ ¬ colliding_output_at values i) →
       output_variables values = Some declared →
       ¬ set_of declared ⊆ final_known values →
       validate_chains values
       = Err (ValueError (OutputVarsNotFound
                (set_of declared ∖ final_known values))))
  ∧ (∀ values', validate_chains values = Ok values' →
       known_after_loop values = Ok (final_known values)).
Proof.
  split; [|split; [|split]].
  - unfold validate_chains. split.
    + intros [v Hv].
      destruct (known_after_loop values) as [known|e] eqn:Hloop; simpl in Hv.
      * right. apply known_after_loop_Ok in Hloop as [-> _].
        destruct (output_variables values) as [declared|] eqn:Hov.
        -- case_decide as Hm; [done|].
           apply set_choose_L in Hm as [k [Hk1 Hk2]%elem_of_difference].
           apply elem_of_list_to_set in Hk1. by exists declared, k.
        -- destruct (default false (return_all values)); simpl in Hv; [done|].
           destruct (last_chain (chains values)) as [c|e] eqn:Hl;
             simpl in Hv; [done|].
           unfold last_chain in Hl. destruct (list.last (chains values));
             [done|]. congruence.
      * left. apply known_after_loop_fails. exists v. congruence.
    + intros [Hbad|(declared & k & Hov & Hk & Hk')].
      * apply known_after_loop_fails in Hbad as [v ->]. by exists v.
      * destruct (known_after_loop values) as [known|e] eqn:Hloop; simpl.
        -- apply known_after_loop_Ok in Hloop as [-> _]. rewrite Hov.
           case_decide as Hm; [|eexists; done]. exfalso.
           assert (k ∈ set_of declared ∖ final_known values) as Hx.
           { apply elem_of_difference. split; [|done].
             by apply elem_of_list_to_set. }
           rewrite Hm in Hx. by apply not_elem_of_empty in Hx.
        -- apply check_chains_Err in Hloop as [v ->]. by exists v.
  - intros i c Hi Hpre.
    assert (known_after_loop values
            = (k ← check_chain (known_before values i) c;
               check_chains k (drop (S i) (chains values)))) as Hloop.
    { unfold known_after_loop, known_before. apply check_chains_prefix; [done|].
      intros j cj Hj Hcj. apply passes_iff. destruct (Hpre j Hj) as [Hm Hc].
      split; intros (k & Hk & Hk'); [apply Hm | apply Hc]; by exists cj, k. }
    unfold validate_chains. rewrite Hloop.
    destruct (check_chain_cases (known_before values i) c)
      as [Hok | [[Herr Hne] | (Herr & Hin & Hne)]].
    + apply check_chain_Ok in Hok as (Hin & Hout & _).
      assert (passes (known_before values i) c) as [H1 H2]%passes_iff by done.
      split.
      * intros (c' & k & Hi' & Hk & Hk'). rewrite Hi in Hi'.
        injection Hi' as <-. destruct H1; eauto.
      * intros _ (c' & k & Hi' & Hk & Hk'). rewrite Hi in Hi'.
        injection Hi' as <-. destruct H2; eauto.
    + rewrite Herr. simpl. split; [done|]. intros Hnm. exfalso.
      apply set_choose_L in Hne as [k [Hk1 Hk2]%elem_of_difference].
      apply elem_of_list_to_set in Hk1. apply Hnm. by exists c, k.
    + rewrite Herr. simpl. split; [|done].
      intros (c' & k & Hi' & Hk & Hk'). rewrite Hi in Hi'.
      injection Hi' as <-. exfalso. apply Hk', Hin.
      by apply elem_of_list_to_set.
  - intros declared Hall Hov Hnot. unfold validate_chains.
    assert (known_after_loop values = Ok (final_known values)) as ->
      by (apply known_after_loop_Ok; done).
    simpl. rewrite Hov. case_decide as Hm; [|done].
    destruct Hnot. intros k Hk.
    destruct (decide (k ∈ final_known values)) as [|Hn]; [done|].
    assert (k ∈ set_of declared ∖ final_known values) as Hx
      by (apply elem_of_difference; done).
    rewrite Hm in Hx. by apply not_elem_of_empty in Hx.
  - intros values' Hv. unfold validate_chains in Hv.
    destruct (known_after_loop values) as [known|e] eqn:Hloop; [|done].
    by apply known_after_loop_Ok in Hloop as [-> _].
Qed.

Lemma validate_chains_in_order_witness :
  missing_input_at values_missing_input 1
  ∧ validate_chains values_missing_input
    = Err (ValueError (MissingInputKeys
             (set_of ["zz"] ∖ known_before values_missing_input 1))).
Proof.
  assert (missing_input_at values_missing_input 1) as Hmiss.
  { exists (declared_chain ["zz"] ["c"]), "zz".
    split; [reflexivity|]. split; [apply list_elem_of_here|].
    apply (bool_decide_unpack (¬ _)). vm_compute. exact I. }
  split; [exact Hmiss|].
  refine (proj1 (proj1 (proj2 (validate_chains_in_order values_missing_input))
                   1 (declared_chain ["zz"] ["c"]) eq_refl _) Hmiss).
  intros j Hj. assert (j = 0) as -> by lia.
  split; intros (c & k & Hc & Hk & Hk'); injection Hc as <-; simpl in Hk.
  - apply list_elem_of_singleton in Hk as ->. apply Hk'.
    apply (bool_decide_unpack _). vm_compute. exact I.
  - apply list_elem_of_singleton in Hk as ->. revert Hk'.
    apply (bool_decide_unpack (¬ _)). vm_compute. exact I.
Defined.

(** C8. A variable-flow chain constructed without declared output variables
    gets, with the return-all flag, exactly the known variables that are not
    declared inputs (each once), and otherwise exactly the output keys of its
    last sub-chain. *)
Theorem default_output_variables (values : seq_values) (verbose : bool)
    (self : t) :
  output_variables values = None →
  construct values verbose = Ok self →
  (default false (return_all values) = true →
     NoDup (self_output_variables self)
     ∧ ∀ k, k ∈ self_output_variables self ↔
            k ∈ final_known values ∧ k ∉ input_variables values)
  ∧ (default false (return_all values) = false →
     ∃ c, list.last (chains values) = Some c
          ∧ self_output_variables self = output_keys c).
Proof.
  intros Hnone Hself. unfold construct, validate_chains in Hself.
  destruct (known_after_loop values) as [known|e] eqn:Hloop; [|done].
  apply known_after_loop_Ok in Hloop as [-> _]. simpl in Hself.
  rewrite Hnone in Hself.
  destruct (default false (return_all values)); simpl in Hself.
  - injection Hself as <-. simpl. split; [|done]. intros _. split.
    + apply NoDup_elements.
    + intros k. rewrite elem_of_elements, elem_of_difference.
      unfold set_of. by rewrite elem_of_list_to_set.
  - split; [done|]. intros _. unfold last_chain in Hself.
    destruct (list.last (chains values)) as [c|]; [|done].
    simpl in Hself. injection Hself as <-. by exists c.
Qed.

Lemma default_output_variables_witness :
  (∀ k, k ∈ elements (final_known (values_three_steps (Some true))
                      ∖ set_of ["a"]) ↔
        k ∈ final_known (values_three_steps (Some true)) ∧ k ∉ ["a"])
  ∧ ∃ c, list.last (chains (values_three_steps None)) = Some c
         ∧ ["d"] = output_keys c.
Proof.
  split.
  - refine (proj2 (proj1 (default_output_variables
      (values_three_steps (Some true)) false _ eq_refl eq_refl) eq_refl)).
  - refine (proj2 (default_output_variables
      (values_three_steps None) false _ eq_refl eq_refl) eq_refl).
Defined.

End VariableFlowConstruction.

(** ** Calling the variable-flow chain *)

Section VariableFlowCall.
Import SequentialChain.

Lemma flows_length cs env envs final :
  flows cs env envs final → length envs = length cs.
Proof. induction 1; simpl; congruence. Qed.

Lemma flows_dom cs env envs final :
  flows cs env envs final → dom final = dom env ∪ outputs_union cs.
Proof.
  induction 1 as [env|c cs env out envs final Hcall Hdom _ IH].
  - unfold outputs_union; simpl. by rewrite (right_id_L ∅ (∪)).
  - rewrite IH, dom_union_L, Hdom, outputs_union_cons.
    rewrite (comm_L (∪) (set_of (output_keys c)) (dom env)).
    by rewrite (assoc_L (∪)).
Qed.

(** The loop of [_call] on sub-chains that respond and whose inputs are
    provided: it returns, and its calls are the steps of a flow. *)
Lemma run_chains_flows verbose cs : ∀ i known_values,
  (∀ c, c ∈ cs → responds c) →
  (∀ j c, cs !! j = Some c →
     set_of (input_keys c) ⊆ dom known_values ∪ outputs_union (take j cs)) →
  ∃ envs final,
    flows cs known_values envs final
    ∧ (run_chains verbose i cs known_values).2 = Ok final
    ∧ invocations (run_chains verbose i cs known_values).1
      = zip (seq i (length cs)) envs.
Proof.
  induction cs as [|c cs IH]; intros i known_values Hresp Hin.
  - exists [], known_values. repeat split. constructor.
  - destruct (Hresp c ltac:(apply list_elem_of_here) known_values)
      as (out & Hcall & Hdom).
    { specialize (Hin 0 c eq_refl). unfold outputs_union in Hin.
      simpl in Hin. by rewrite (right_id_L ∅ (∪)) in Hin. }
    destruct (IH (S i) (out ∪ known_values)) as (envs & final & Hf & Hr & Hl).
    { intros c' Hc'. apply Hresp. by apply list_elem_of_further. }
    { intros j c' Hj. specialize (Hin (S j) c' Hj). simpl in Hin.
      rewrite outputs_union_cons in Hin. rewrite dom_union_L, Hdom.
      set_solver. }
    exists (known_values :: envs), final. split; [by econstructor|].
    destruct (run_chains verbose (S i) cs (out ∪ known_values))
      as [log r] eqn:Hrun. simpl in Hr, Hl. subst r.
    cbn [run_chains]. unfold tbind, emit, lift, when, tret. rewrite Hcall.
    destruct verbose; rewrite Hrun; simpl; by rewrite Hl.
Qed.

Lemma select_keys_Ok (known_values : gmap string string) keys :
  set_of keys ⊆ dom known_values →
  ∃ picked, select_keys known_values keys = Ok picked
    ∧ dom picked = set_of keys
    ∧ ∀ k, k ∈ keys → picked !! k = known_values !! k.
Proof.
  induction keys as [|k keys IH]; intros Hsub; simpl.
  - exists ∅. split; [done|]. split; [by rewrite dom_empty_L|].
    intros k Hk. by apply elem_of_nil in Hk.
  - assert (k ∈ dom known_values) as [v Hv]%elem_of_dom.
    { apply Hsub. unfold set_of. set_solver. }
    destruct IH as (picked & -> & Hdom & Hval).
    { unfold set_of in *. set_solver. }
    rewrite Hv. simpl. exists (<[k:=v]> picked). split; [done|]. split.
    + rewrite dom_insert_L, Hdom. unfold set_of. set_solver.
    + intros k' Hk'. destruct (decide (k = k')) as [<-|Hne].
      * by rewrite lookup_insert_eq.
      * rewrite lookup_insert_ne by done. apply Hval.
        apply elem_of_cons in Hk' as [->|]; done.
Qed.

Lemma outputs_union_last cs c :
  list.last cs = Some c → set_of (output_keys c) ⊆ outputs_union cs.
Proof.
  intros [cs' ->]%last_Some. unfold outputs_union.
  rewrite fmap_app, union_list_app_L. simpl. set_solver.
Qed.

(** What a successful construction guarantees about the object. *)
Lemma construct_Ok values verbose self :
  construct values verbose = Ok self →
  self_chains self = chains values
  ∧ self_input_variables self = input_variables values
  ∧ (∀ i, ¬ missing_input_at values i ∧ ¬ colliding_output_at values i)
  ∧ set_of (self_output_variables self) ⊆ final_known values.
Proof.
  unfold construct, validate_chains. intros Hself.
  destruct (known_after_loop values) as [known|e] eqn:Hloop; [|done].
  apply known_after_loop_Ok in Hloop as [-> Hall]. simpl in Hself.
  destruct (output_variables values) as [declared|] eqn:Hov.
  - case_decide as Hm; [|done]. simpl in Hself. injection Hself as <-.
    simpl. rewrite Hov. simpl. repeat split; try apply Hall.
    intros k Hk. destruct (decide (k ∈ final_known values)); [done|].
    assert (k ∈ set_of declared ∖ final_known values) as Hx
      by (apply elem_of_difference; done).
    rewrite Hm in Hx. by apply not_elem_of_empty in Hx.
  - destruct (default false (return_all values)); simpl in Hself.
    + injection Hself as <-. simpl. repeat split; try apply Hall.
      intros k [Hk _]%elem_of_list_to_set%elem_of_elements%elem_of_difference.
      done.
    + unfold last_chain in Hself.
      destruct (list.last (chains values)) as [c|] eqn:Hlast; [|done].
      simpl in Hself. injection Hself as <-. simpl.
      repeat split; try apply Hall.
      apply outputs_union_last in Hlast. unfold final_known. set_solver.
Qed.

(** C2. On a validly constructed variable-flow chain whose sub-chains
    respond, a call on a mapping that holds the declared input variables
    returns.  The sub-chains are called once each, in list order; the first is
    handed the inputs and every later one the environment of its predecessor
    with the predecessor's outputs merged in; the result holds exactly the
    declared output variables, with the values of the final environment. *)
Theorem call_threads_environment (values : seq_values) (verbose : bool)
    (self : t) (inputs : gmap string string) :
  construct values verbose = Ok self →
  set_of (self_input_variables self) ⊆ dom inputs →
  (∀ c, c ∈ self_chains self → responds c) →
  ∃ envs final result,
    flows (self_chains self) inputs envs final
    ∧ length envs = length (self_chains self)
    ∧ invocations (_call self inputs).1
      = zip (seq 0 (length (self_chains self))) envs
    ∧ (_call self inputs).2 = Ok result
    ∧ dom result = set_of (self_output_variables self)
    ∧ ∀ k, k ∈ self_output_variables self → result !! k = final !! k.
Proof.
  intros (Hcs & Hins & Hall & Hout)%construct_Ok Hinputs Hresp.
  destruct (run_chains_flows (self_verbose self) (self_chains self) 0 inputs)
    as (envs & final & Hflow & Hr & Hl); [done| |].
  { intros j c Hj. rewrite Hcs in *. destruct (Hall j) as [Hm _].
    intros k Hk%elem_of_list_to_set.
    destruct (decide (k ∈ dom inputs ∪ outputs_union (take j (chains values))))
      as [|Hn]; [done|].
    destruct Hm. exists c, k. split; [done|]. split; [done|].
    unfold known_before. rewrite <- Hins. set_solver. }
  destruct (select_keys_Ok final (self_output_variables self))
    as (result & Hsel & Hdom & Hval).
  { rewrite (flows_dom _ _ _ _ Hflow), Hcs.
    unfold final_known in Hout. rewrite <- Hins in Hout. set_solver. }
  exists envs, final, result. split; [done|].
  split; [by eapply flows_length|]. unfold _call, tbind, lift.
  destruct (run_chains (self_verbose self) 0 (self_chains self) inputs)
    as [log r]. simpl in Hr, Hl. subst r. rewrite Hsel. simpl.
  by rewrite (right_id_L [] (++)).
Qed.

Lemma exclaim_responds : responds exclaim.
Proof.
  intros env Ha. unfold exclaim, getitem; simpl.
  assert ("a" ∈ dom env) as [v ->]%elem_of_dom
    by (apply Ha; unfold set_of; set_solver).
  simpl. eexists. split; [done|]. unfold set_of. simpl.
  by rewrite dom_singleton_L, (right_id_L ∅ (∪)).
Qed.

Lemma join_responds : responds join.
Proof.
  intros env Ha. unfold join, getitem; simpl.
  assert ("a" ∈ dom env) as [a ->]%elem_of_dom
    by (apply Ha; unfold set_of; set_solver).
  assert ("b" ∈ dom env) as [b ->]%elem_of_dom
    by (apply Ha; unfold set_of; set_solver).
  simpl. eexists. split; [done|]. unfold set_of. simpl.
  by rewrite dom_singleton_L, (right_id_L ∅ (∪)).
Qed.

Lemma call_threads_environment_witness :
  ∃ envs final result,
    flows [exclaim; join] {[ "a" := "hi" ]} envs final
    ∧ length envs = 2
    ∧ invocations (_call exclaim_join_chain {[ "a" := "hi" ]}).1
      = zip (seq 0 2) envs
    ∧ (_call exclaim_join_chain {[ "a" := "hi" ]}).2 = Ok result
    ∧ dom result = set_of ["c"; "b"]
    ∧ ∀ k, k ∈ ["c"; "b"] → result !! k = final !! k.
Proof.
  apply (call_threads_environment values_exclaim_join true
           exclaim_join_chain {[ "a" := "hi" ]}).
  - reflexivity.
  - unfold set_of. simpl. rewrite dom_singleton_L. set_solver.
  - intros c Hc. simpl in Hc.
    apply elem_of_cons in Hc as [->|Hc]; [apply exclaim_responds|].
    apply list_elem_of_singleton in Hc as ->. apply join_responds.
Defined.

End VariableFlowCall.

(** ** The single-I/O chain *)

Section SingleIO.
Import SimpleSequentialChain.

Lemma single_io_check_Ok cs :
  check_chains cs = Ok () ↔
  ∀ c, c ∈ cs → length (input_keys c) = 1 ∧ length (output_keys c) = 1.
Proof.
  induction cs as [|c cs IH]; simpl.
  - split; [|done]. intros _ c Hc. by apply elem_of_nil in Hc.
  - repeat case_decide.
    + split; [done|]. intros Hall.
      destruct (Hall c) as [? _]; [apply list_elem_of_here | done].
    + split; [done|]. intros Hall.
      destruct (Hall c) as [_ ?]; [apply list_elem_of_here | done].
    + rewrite IH. split.
      * intros Hall c' [->|Hc']%elem_of_cons; [lia | by apply Hall].
      * intros Hall c' Hc'. apply Hall. by apply list_elem_of_further.
Qed.

Lemma single_io_check_cases cs :
  check_chains cs = Ok () ∨ ∃ v, check_chains cs = Err (ValueError v).
Proof.
  induction cs as [|c cs IH]; simpl; [by left|].
  repeat case_decide; eauto.
Qed.

(** C4. Constructing the single-I/O chain fails with a validation error
    whenever some sub-chain does not have exactly one input key or exactly
    one output key, and succeeds, leaving the values as they are, when every
    sub-chain has exactly one of each. *)
Theorem single_io_validation (values : t) :
  ((∃ c, c ∈ chains values
         ∧ (length (input_keys c) ≠ 1 ∨ length (output_keys c) ≠ 1)) →
   is_ValidationError (validate_chains values))
  ∧ ((∀ c, c ∈ chains values →
           length (input_keys c) = 1 ∧ length (output_keys c) = 1) →
     validate_chains values = Ok values).
Proof.
  unfold validate_chains, is_ValidationError. split.
  - intros (c & Hc & Hbad).
    destruct (single_io_check_cases (chains values)) as [Hok|[v ->]];
      [|by exists v].
    rewrite single_io_check_Ok in Hok. destruct (Hok c Hc). lia.
  - intros Hall. apply single_io_check_Ok in Hall. by rewrite Hall.
Qed.

Lemma single_io_validation_witness :
  is_ValidationError
    (validate_chains (simple [text_chain strip; two_inputs_chain] false false))
  ∧ validate_chains (simple [text_chain strip; text_chain lstrip] false false)
    = Ok (simple [text_chain strip; text_chain lstrip] false false).
Proof.
  split.
  - apply (proj1 (single_io_validation _)). exists two_inputs_chain. split.
    + apply list_elem_of_further, list_elem_of_here.
    + left. simpl. lia.
  - apply (proj2 (single_io_validation _)). intros c Hc. simpl in Hc.
    apply elem_of_cons in Hc as [->|Hc]; [done|].
    apply list_elem_of_singleton in Hc as ->. done.
Defined.

(** The loop threads one value through the stages, in list order. *)
Lemma run_chains_stages self cs fs : ∀ i x,
  Forall2 computes cs fs →
  (run_chains self i cs x).2 = Ok (foldl (λ v f, stage self f v) x fs).
Proof.
  intros i x Hall. revert i x.
  induction Hall as [|c f cs fs Hc _ IH]; intros i x; [done|].
  cbn [run_chains foldl]. rewrite Hc. unfold tbind, lift, when, emit, tret.
  specialize (IH (S i) (stage self f x)). unfold stage in *.
  destruct (strip_outputs self), (verbose self);
    destruct (run_chains self (S i) cs _) as [log r]; simpl in *; done.
Qed.

(** C3. A single-I/O chain built from sub-chains computing [f], [g] and [h]
    maps [x] to [h (g (f x))]; with the strip-outputs flag the value is
    trimmed after each stage.  The same value is what [_call] binds to the
    output key. *)
Theorem simple_chain_composes (self : t) (F G H : Chain)
    (f g h : string → string) (x : string) :
  chains self = [F; G; H] →
  computes F f → computes G g → computes H h →
  (strip_outputs self = false →
     (run_text self x).2 = Ok (h (g (f x)))
     ∧ (_call self {[ input_key self := x ]}).2
       = Ok {[ output_key self := h (g (f x)) ]})
  ∧ (strip_outputs self = true →
     (run_text self x).2 = Ok (strip (h (strip (g (strip (f x))))))
     ∧ (_call self {[ input_key self := x ]}).2
       = Ok {[ output_key self := strip (h (strip (g (strip (f x))))) ]}).
Proof.
  intros Hcs HF HG HH.
  assert (∀ v, (_call self {[ input_key self := x ]}).2 = Ok {[ output_key self := v ]} →
               (run_text self x).2 = Ok v) as Hrun.
  { intros v Hv. unfold run_text, tbind, lift.
    destruct (_call self {[ input_key self := x ]}) as [log r].
    simpl in Hv. subst r. unfold getitem. by rewrite lookup_singleton_eq. }
  assert ((_call self {[ input_key self := x ]}).2
          = Ok {[ output_key self
                  := stage self h (stage self g (stage self f x)) ]}) as Hcall.
  { unfold _call, getitem. rewrite lookup_singleton_eq. unfold lift, tbind, tret.
    pose proof (run_chains_stages self [F; G; H] [f; g; h] 0 x) as Hst.
    rewrite Hcs. destruct (run_chains self 0 [F; G; H] x) as [log r].
    simpl in Hst. rewrite Hst; [done|]. repeat constructor; done. }
  unfold stage in Hcall.
  split; intros Hs; rewrite Hs in Hcall; split; auto.
Qed.

Lemma simple_chain_composes_witness :
  (run_text (simple [text_chain pad; text_chain shout; text_chain pad]
               false true) "hi").2
  = Ok (pad (shout (pad "hi")))
  ∧ (run_text (simple [text_chain pad; text_chain shout; text_chain pad]
                 true true) "hi").2
    = Ok (strip (pad (strip (shout (strip (pad "hi")))))).
Proof.
  split.
  - refine (proj1 (proj1 (simple_chain_composes
      (simple [text_chain pad; text_chain shout; text_chain pad] false true)
      _ _ _ pad shout pad "hi" eq_refl _ _ _) eq_refl));
      intros y; reflexivity.
  - refine (proj1 (proj2 (simple_chain_composes
      (simple [text_chain pad; text_chain shout; text_chain pad] true true)
      _ _ _ pad shout pad "hi" eq_refl _ _ _) eq_refl));
      intros y; reflexivity.
Defined.

End SingleIO.

(** ** The agent executor *)

Section AgentRuns.
Import EventBus Parser AgentExecutor.

Context {LLM : Type}.
Variable complete : LLM → string → list string → LLM * result string.
Variable render_prompt :
  string → list Registry.Tool → list (string * string) → string.
Variable stop : list string.
Variable unknown_tool_observation : string → string.
Variable format_reminder : string.
Variable TIME_LIMIT_MESSAGE : string.
Variable cycle_time : nat → nat.

Local Abbreviation run_agent :=
  (run complete render_prompt stop unknown_tool_observation
     format_reminder TIME_LIMIT_MESSAGE cycle_time).
Local Abbreviation loop_agent :=
  (loop complete render_prompt stop unknown_tool_observation
     format_reminder TIME_LIMIT_MESSAGE cycle_time).

(** Neither limit stops a run whose counter is below the iteration limit and
    whose elapsed time does not exceed the time limit. *)
Lemma stopping_condition_None cfg st :
  (∀ n, max_iterations cfg = Some n → iterations st < n) →
  (∀ t, max_execution_time cfg = Some t → elapsed_time st ≤ t) →
  stopping_condition TIME_LIMIT_MESSAGE cfg st = None.
Proof.
  intros Hit Ht. unfold stopping_condition, iterations_reached, time_exceeded.
  destruct (max_iterations cfg) as [n|];
    [specialize (Hit n eq_refl); rewrite bool_decide_eq_false_2 by lia|];
    (destruct (max_execution_time cfg) as [t|]; [|done]);
    specialize (Ht t eq_refl); by rewrite bool_decide_eq_false_2 by lia.
Qed.

(** C5. With [max_iterations = 0] a run returns the stopped-early message
    whatever the input, the model, the tools and the amount of fuel: it ends
    in the state StoppedEarly with an empty scratchpad, the model is left as
    it was, and no LLMStart and no ToolStart event is delivered, the only
    events being the executor's own ChainStart and ChainEnd. *)
Theorem max_iterations_zero_stops_early (cfg : config) (fuel : nat) (m : LLM)
    (input : string) :
  max_iterations cfg = Some 0 →
  ∃ o, run_agent cfg fuel m input = Some o
       ∧ returned o = Ok "Agent stopped due to max iterations."
       ∧ state_status (state_after o) = StoppedEarly
       ∧ scratchpad (state_after o) = []
       ∧ model_after o = m
       ∧ (∀ c, count LLMStart c (events o) = 0)
       ∧ (∀ c, count ToolStart c (events o) = 0)
       ∧ events o
         = gated cfg (executor_verbose cfg)
             [event ChainStart TheExecutor {[ "input" := input ]};
              event ChainEnd TheExecutor
                {[ "output" := "Agent stopped due to max iterations." ]}].
Proof.
  intros Hmax. unfold run.
  assert (∀ log, loop_agent cfg fuel input m initial_state log
          = Some {| model_after := m;
                    state_after := finish initial_state StoppedEarly;
                    events := log;
                    returned := Ok MAX_ITERATIONS_MESSAGE |}) as ->.
  { intros log.
    destruct fuel; simpl; unfold stopping_condition, iterations_reached;
      rewrite Hmax; reflexivity. }
  eexists. split; [reflexivity|]. simpl. unfold gated.
  destruct (enabled (process_verbose cfg) (executor_verbose cfg));
    repeat split; intros []; reflexivity.
Qed.

(** C7. A run that dispatches one tool and then finishes, under limits that
    leave room for two decisions, delivers, when every component is verbose
    (by its own flag or by the process-wide one), exactly one top-level
    ChainStart/ChainEnd pair, two LLMStart/LLMEnd pairs and one
    ToolStart/ToolEnd pair; when no component is verbose it delivers no event
    at all, so the four counts are 0.  The LLM and tool counts are exact over
    all emitters: the two LLM pairs are the model's and the tool pair is the
    executor's, and no other component delivers an event with one of these
    tags. *)
Theorem single_tool_run_event_counts (cfg : config) (fuel : nat) (m : LLM)
    (input output : string) (v : bool) :
  dispatch_then_finish complete render_prompt stop cfg m input output →
  (∀ n, max_iterations cfg = Some n → 2 ≤ n) →
  (∀ t, max_execution_time cfg = Some t → cycle_time 0 ≤ t) →
  verbosity cfg v →
  ∃ o, run_agent cfg (S (S fuel)) m input = Some o
       ∧ returned o = Ok output
       ∧ count ChainStart TheExecutor (events o) = (if v then 1 else 0)
       ∧ count ChainEnd TheExecutor (events o) = (if v then 1 else 0)
       ∧ count LLMStart TheModel (events o) = (if v then 2 else 0)
       ∧ count LLMEnd TheModel (events o) = (if v then 2 else 0)
       ∧ count ToolStart TheExecutor (events o) = (if v then 1 else 0)
       ∧ count ToolEnd TheExecutor (events o) = (if v then 1 else 0)
       ∧ (v = false → events o = [])
       ∧ count_tag LLMStart (events o) = (if v then 2 else 0)
       ∧ count_tag LLMEnd (events o) = (if v then 2 else 0)
       ∧ count_tag ToolStart (events o) = (if v then 1 else 0)
       ∧ count_tag ToolEnd (events o) = (if v then 1 else 0).
Proof.
  intros (m1 & m2 & text1 & text2 & tool_name & tool_input & tool
          & Hc1 & Hp1 & Htool & Hc2 & Hp2) Hit Ht (He & Hp & Hm).
  unfold run. cbn [loop].
  rewrite stopping_condition_None; [|intros n Hn; specialize (Hit n Hn);
    simpl; lia | intros t Htm; simpl; lia].
  unfold decide_next. cbn [scratchpad initial_state]. rewrite Hc1, Hp1.
  cbn [mbind result_bind]. unfold Registry.invoke. rewrite Htool.
  rewrite stopping_condition_None; [|intros n Hn; specialize (Hit n Hn);
    simpl; lia | intros t Htm; specialize (Ht t Htm); simpl; lia].
  cbn [scratchpad next_cycle initial_state app]. rewrite Hc2, Hp2.
  cbn [mbind result_bind]. eexists. split; [reflexivity|].
  cbn [returned events]. unfold dispatch_events, gated.
  rewrite He, Hp, Hm. destruct v; repeat split; try reflexivity; done.
Qed.

End AgentRuns.

(** ** The runs of the unit tests *)

Section TestRuns.
Import EventBus Parser AgentExecutor TestAgent.

Local Abbreviation run_test :=
  (run complete plain_prompt ["Observation:"] not_a_tool
     "Invalid format" "Agent stopped due to time limit." (λ _, 1)).

Lemma max_iterations_zero_stops_early_witness :
  ∃ o, run_test (_get_agent (Some 0)) 0 (FakeListLLM.new responses)
         "when was langchain made" = Some o
       ∧ returned o = Ok "Agent stopped due to max iterations."
       ∧ state_status (state_after o) = StoppedEarly
       ∧ scratchpad (state_after o) = []
       ∧ model_after o = FakeListLLM.new responses
       ∧ (∀ c, count LLMStart c (events o) = 0)
       ∧ (∀ c, count ToolStart c (events o) = 0)
       ∧ events o
         = gated (_get_agent (Some 0)) (executor_verbose (_get_agent (Some 0)))
             [event ChainStart TheExecutor
                {[ "input" := "when was langchain made" ]};
              event ChainEnd TheExecutor
                {[ "output" := "Agent stopped due to max iterations." ]}].
Proof.
  apply (max_iterations_zero_stops_early complete plain_prompt
           ["Observation:"] not_a_tool "Invalid format"
           "Agent stopped due to time limit." (λ _, 1)
           (_get_agent (Some 0)) 0 (FakeListLLM.new responses)
           "when was langchain made").
  reflexivity.
Defined.

Lemma search_dispatch_then_finish process_wide executor policy model :
  dispatch_then_finish complete plain_prompt ["Observation:"]
    (callback_agent process_wide executor policy model)
    (FakeListLLM.new search_responses) "when was langchain made"
    "curses foiled again".
Proof.
  unfold dispatch_then_finish. do 7 eexists.
  split; [reflexivity|]. split; [reflexivity|]. split; [reflexivity|].
  split; reflexivity.
Defined.

(** The three callback tests: verbose through the process-wide flag, verbose
    through the flags of the instances, and not verbose. *)
Lemma single_tool_run_event_counts_witness :
  (∃ o, run_test (callback_agent true None None None) 2
          (FakeListLLM.new search_responses) "when was langchain made" = Some o
        ∧ returned o = Ok "curses foiled again"
        ∧ count ChainStart TheExecutor (events o) = 1
        ∧ count ChainEnd TheExecutor (events o) = 1
        ∧ count LLMStart TheModel (events o) = 2
        ∧ count LLMEnd TheModel (events o) = 2
        ∧ count ToolStart TheExecutor (events o) = 1
        ∧ count ToolEnd TheExecutor (events o) = 1
        ∧ (true = false → events o = [])
        ∧ count_tag LLMStart (events o) = 2
        ∧ count_tag LLMEnd (events o) = 2
        ∧ count_tag ToolStart (events o) = 1
        ∧ count_tag ToolEnd (events o) = 1)
  ∧ (∃ o, run_test (callback_agent false (Some true) (Some true) (Some true)) 2
            (FakeListLLM.new search_responses) "when was langchain made"
          = Some o
          ∧ returned o = Ok "curses foiled again"
          ∧ count ChainStart TheExecutor (events o) = 1
          ∧ count ChainEnd TheExecutor (events o) = 1
          ∧ count LLMStart TheModel (events o) = 2
          ∧ count LLMEnd TheModel (events o) = 2
          ∧ count ToolStart TheExecutor (events o) = 1
          ∧ count ToolEnd TheExecutor (events o) = 1
          ∧ (true = false → events o = [])
        ∧ count_tag LLMStart (events o) = 2
        ∧ count_tag LLMEnd (events o) = 2
        ∧ count_tag ToolStart (events o) = 1
        ∧ count_tag ToolEnd (events o) = 1)
  ∧ (∃ o, run_test (callback_agent false None None None) 2
            (FakeListLLM.new search_responses) "when was langchain made"
          = Some o
          ∧ returned o = Ok "curses foiled again"
          ∧ count ChainStart TheExecutor (events o) = 0
          ∧ count ChainEnd TheExecutor (events o) = 0
          ∧ count LLMStart TheModel (events o) = 0
          ∧ count LLMEnd TheModel (events o) = 0
          ∧ count ToolStart TheExecutor (events o) = 0
          ∧ count ToolEnd TheExecutor (events o) = 0
          ∧ (false = false → events o = [])
        ∧ count_tag LLMStart (events o) = 0
        ∧ count_tag LLMEnd (events o) = 0
        ∧ count_tag ToolStart (events o) = 0
        ∧ count_tag ToolEnd (events o) = 0).
Proof.
  split; [|split].
  - apply (single_tool_run_event_counts complete plain_prompt
             ["Observation:"] not_a_tool "Invalid format"
             "Agent stopped due to time limit." (λ _, 1)
             (callback_agent true None None None) 0
             (FakeListLLM.new search_responses) "when was langchain made"
             "curses foiled again" true).
    + apply search_dispatch_then_finish.
    + intros n Hn. discriminate Hn.
    + intros t Ht. discriminate Ht.
    + repeat split.
  - apply (single_tool_run_event_counts complete plain_prompt
             ["Observation:"] not_a_tool "Invalid format"
             "Agent stopped due to time limit." (λ _, 1)
             (callback_agent false (Some true) (Some true) (Some true)) 0
             (FakeListLLM.new search_responses) "when was langchain made"
             "curses foiled again" true).
    + apply search_dispatch_then_finish.
    + intros n Hn. discriminate Hn.
    + intros t Ht. discriminate Ht.
    + repeat split.
  - apply (single_tool_run_event_counts complete plain_prompt
             ["Observation:"] not_a_tool "Invalid format"
             "Agent stopped due to time limit." (λ _, 1)
             (callback_agent false None None None) 0
             (FakeListLLM.new search_responses) "when was langchain made"
             "curses foiled again" false).
    + apply search_dispatch_then_finish.
    + intros n Hn. discriminate Hn.
    + intros t Ht. discriminate Ht.
    + repeat split.
Defined.

(** C6. The run of the bad-action test: on the input "when was langchain
    made", with the tools Search and Lookup and the two responses of the fake
    model, under any iteration limit that leaves room for two decisions, the
    unknown tool name BadAction becomes an observation appended to the
    scratchpad with the model's text, the loop goes on, and the run finishes
    with exactly "curses foiled again" after two decisions: the model has
    been called twice and one cycle has been completed. *)
Theorem bad_action_run
    (render_prompt :
       string → list Registry.Tool → list (string * string) → string)
    (stop : list string) (unknown_tool_observation : string → string)
    (format_reminder TIME_LIMIT_MESSAGE : string) (cycle_time : nat → nat)
    (limit : option nat) (fuel : nat) :
  (∀ n, limit = Some n → 2 ≤ n) →
  ∃ o, run complete render_prompt stop unknown_tool_observation
         format_reminder TIME_LIMIT_MESSAGE cycle_time (_get_agent limit)
         (S (S fuel)) (FakeListLLM.new responses) "when was langchain made"
       = Some o
       ∧ returned o = Ok "curses foiled again"
       ∧ state_status (state_after o) = Finished
       ∧ scratchpad (state_after o)
         = [("I'm turning evil" +:+ nl +:+ "Action: BadAction" +:+ nl
               +:+ "Action Input: misalignment",
             unknown_tool_observation "BadAction")]
       ∧ iterations (state_after o) = 1
       ∧ FakeListLLM.i (model_after o) = 1%Z
       ∧ Registry.lookup (AgentExecutor.tools (_get_agent limit)) "BadAction" = None.
Proof.
  intros Hlimit.
  set (text1 := "I'm turning evil" +:+ nl +:+ "Action: BadAction" +:+ nl
                +:+ "Action Input: misalignment").
  set (text2 := "Oh well" +:+ nl +:+ "Action: Final Answer" +:+ nl
                +:+ "Action Input: curses foiled again").
  set (m1 := {| FakeListLLM.responses := responses; FakeListLLM.i := 0 |}).
  set (m2 := {| FakeListLLM.responses := responses; FakeListLLM.i := 1 |}).
  assert (∀ p s, complete (FakeListLLM.new responses) p s = (m1, Ok text1))
    as Hc1 by reflexivity.
  assert (∀ p s, complete m1 p s = (m2, Ok text2)) as Hc2 by reflexivity.
  assert (parse text1 = Ok (Action "BadAction" "misalignment")) as Hp1
    by reflexivity.
  assert (parse text2 = Ok (AgentFinish "curses foiled again")) as Hp2
    by reflexivity.
  assert (Registry.invoke (AgentExecutor.tools (_get_agent limit))
            "BadAction" "misalignment"
          = Err (ToolNotFoundError "BadAction")) as Hinv by reflexivity.
  unfold run. cbn [loop].
  rewrite stopping_condition_None;
    [|intros n Hn; specialize (Hlimit n Hn); simpl; lia | intros t Ht; done].
  unfold decide_next. rewrite Hc1, Hp1. cbn [mbind result_bind]. rewrite Hinv.
  rewrite stopping_condition_None;
    [|intros n Hn; specialize (Hlimit n Hn); simpl; lia | intros t Ht; done].
  rewrite Hc2, Hp2. cbn [mbind result_bind].
  eexists. split; [reflexivity|]. repeat split.
Qed.

Lemma bad_action_run_witness :
  ∃ o, run_test (_get_agent None) 2 (FakeListLLM.new responses)
         "when was langchain made" = Some o
       ∧ returned o = Ok "curses foiled again"
       ∧ state_status (state_after o) = Finished
       ∧ scratchpad (state_after o)
         = [("I'm turning evil" +:+ nl +:+ "Action: BadAction" +:+ nl
               +:+ "Action Input: misalignment",
             not_a_tool "BadAction")]
       ∧ iterations (state_after o) = 1
       ∧ FakeListLLM.i (model_after o) = 1%Z
       ∧ Registry.lookup (AgentExecutor.tools (_get_agent None)) "BadAction" = None.
Proof.
  apply (bad_action_run plain_prompt ["Observation:"] not_a_tool
           "Invalid format" "Agent stopped due to time limit." (λ _, 1)
           None 0).
  intros n Hn. discriminate Hn.
Defined.

End TestRuns.

(** ** The context-accumulating chain *)

Section PreviousContext.
Import SequentailChainWithPreviousContext.

Lemma append_assoc (a b c : string) : (a +:+ b) +:+ c = a +:+ (b +:+ c).
Proof.
  induction a as [|x a IH]; [reflexivity|].
  change (String x ((a +:+ b) +:+ c) = String x (a +:+ (b +:+ c))).
  by rewrite IH.
Qed.

Lemma length_append (a b : string) :
  String.length (a +:+ b) = String.length a + String.length b.
Proof.
  induction a as [|x a IH]; [reflexivity|].
  change (S (String.length (a +:+ b)) = S (String.length a + String.length b)).
  by rewrite IH.
Qed.

Lemma append_empty_r (a : string) : a +:+ "" = a.
Proof.
  induction a as [|x a IH]; [reflexivity|].
  change (String x (a +:+ "") = String x a). by rewrite IH.
Qed.

Lemma completes_turns cs σ ss σ' : completes cs σ ss σ' → turns cs σ ss.
Proof. induction 1; econstructor; eauto. Qed.

Lemma completes_length cs σ ss σ' :
  completes cs σ ss σ' → length ss = length cs.
Proof. induction 1; simpl; congruence. Qed.

(** The loop of [_call] takes turns, whatever its outcome. *)
Lemma run_chains_turns self cs : ∀ i known_values σ,
  turns cs σ (steps (run_chains self i cs known_values σ).2.1).
Proof.
  induction cs as [|c cs IH]; intros i known_values σ; [constructor|].
  cbn [run_chains]. unfold bind at 1. unfold prepend_context, bind, get, put,
    ret, tret. cbn -[run_chains select_keys].
  set (p' := set_template (heap σ (prompt c))
               (context σ +:+ template (heap σ (prompt c)))).
  unfold try, lift.
  destruct (select_keys known_values (input_variables (heap σ (prompt c))))
    as [used|e]; cbn -[run_chains]; [|constructor].
  destruct (invoke c p' used) as [outputs|e]; cbn -[run_chains];
    [|constructor].
  destruct (format (heap σ (prompt c))
              (context σ +:+ template (heap σ (prompt c))) used)
    as [prompt_text|e] eqn:Hfmt; cbn -[run_chains]; [|constructor].
  destruct (getitem outputs (output_key c)) as [response|e];
    cbn -[run_chains]; [|constructor].
  unfold set_context, tell, emit, bind, get, put, tret. cbn -[run_chains].
  set (s := {| step_index := i;
               step_template := context σ +:+ template (heap σ (prompt c));
               step_used_values := used; step_prompt := prompt_text;
               step_response := response |}).
  specialize (IH (S i) (outputs ∪ known_values) (after c s σ)).
  unfold after in IH. cbn -[run_chains] in IH.
  destruct (verbose self); cbn -[run_chains];
    destruct (run_chains self (S i) cs (outputs ∪ known_values) _)
      as [σ2 [log2 r2]]; cbn -[run_chains] in *;
    (apply turns_step; [reflexivity | exact Hfmt | exact IH]).
Qed.

(** A loop that returns has given every sub-chain its turn. *)
Lemma run_chains_completes self cs : ∀ i known_values σ σ' log final,
  run_chains self i cs known_values σ = (σ', (log, Ok final)) →
  completes cs σ (steps log) σ'.
Proof.
  induction cs as [|c cs IH]; intros i known_values σ σ' log final.
  { intros [= <- <- _]. constructor. }
  cbn [run_chains]. unfold bind at 1. unfold prepend_context, bind, get, put,
    ret, tret. cbn -[run_chains select_keys].
  set (p' := set_template (heap σ (prompt c))
               (context σ +:+ template (heap σ (prompt c)))).
  unfold try, lift.
  destruct (select_keys known_values (input_variables (heap σ (prompt c))))
    as [used|e]; cbn -[run_chains]; [|done].
  destruct (invoke c p' used) as [outputs|e]; cbn -[run_chains]; [|done].
  destruct (format (heap σ (prompt c))
              (context σ +:+ template (heap σ (prompt c))) used)
    as [prompt_text|e] eqn:Hfmt; cbn -[run_chains]; [|done].
  destruct (getitem outputs (output_key c)) as [response|e];
    cbn -[run_chains]; [|done].
  unfold set_context, tell, emit, bind, get, put, tret. cbn -[run_chains].
  set (s := {| step_index := i;
               step_template := context σ +:+ template (heap σ (prompt c));
               step_used_values := used; step_prompt := prompt_text;
               step_response := response |}).
  specialize (IH (S i) (outputs ∪ known_values) (after c s σ)).
  unfold after in IH. cbn -[run_chains] in IH.
  destruct (verbose self); cbn -[run_chains];
    destruct (run_chains self (S i) cs (outputs ∪ known_values) _)
      as [σ2 [log2 [final2|e2]]]; cbn -[run_chains]; try done;
    intros [= <- <- _]; cbn;
    (apply completes_step; [reflexivity | exact Hfmt | by eapply IH]).
Qed.

Lemma call_steps self inputs σ :
  steps (_call self inputs σ).2.1
  = steps (run_chains self 0 (chains self) inputs σ).2.1.
Proof.
  unfold _call, bind, try, lift.
  destruct (run_chains self 0 (chains self) inputs σ) as [σ1 [log [k|e]]];
    simpl; [|done].
  by rewrite (right_id_L [] (++)).
Qed.

Lemma call_Ok self inputs σ σ' log result :
  _call self inputs σ = (σ', (log, Ok result)) →
  ∃ final, run_chains self 0 (chains self) inputs σ = (σ', (log, Ok final)).
Proof.
  unfold _call, bind, try, lift.
  destruct (run_chains self 0 (chains self) inputs σ) as [σ1 [log1 [k|e]]];
    simpl; [|done].
  rewrite (right_id_L [] (++)). intros [= <- <- _]. eauto.
Qed.

(** Rewriting a template leaves the renderer of every prompt object alone. *)
Lemma after_format c s σ l :
  format (heap (after c s σ) l) = format (heap σ l).
Proof.
  unfold after; simpl. destruct (decide (prompt c = l)) as [<-|Hne].
  - by rewrite fn_lookup_insert.
  - by rewrite fn_lookup_insert_ne.
Qed.

(** A turn touches no prompt object but its own. *)
Lemma state_before_frame cs ss : ∀ σ i l,
  (∀ j c, j < i → cs !! j = Some c → prompt c ≠ l) →
  heap (state_before cs ss σ i) l = heap σ l.
Proof.
  revert ss. induction cs as [|c cs IH]; intros ss σ [|i] l Hl; try done.
  destruct ss as [|s ss]; [done|]. simpl. rewrite IH.
  - unfold after; simpl. apply fn_lookup_insert_ne.
    apply (Hl 0 c); [lia | done].
  - intros j c' Hj Hc'. apply (Hl (S j) c'); [lia | done].
Qed.

(** The turn at position [i] starts from [state_before _ _ _ i]. *)
Lemma turns_at cs σ ss :
  turns cs σ ss → ∀ i s, ss !! i = Some s →
  ∃ c, cs !! i = Some c
    ∧ step_template s
      = step_context (state_before cs ss σ i)
        +:+ step_base (state_before cs ss σ i) c
    ∧ format (heap σ (prompt c)) (step_template s) (step_used_values s)
      = Ok (step_prompt s).
Proof.
  induction 1 as [|c cs σ s ss Ht Hf _ IH]; intros i s0 Hi; [done|].
  destruct i as [|i]; simpl in *.
  - injection Hi as <-. exists c. done.
  - destruct (IH i s0 Hi) as (c' & Hc' & Ht' & Hf'). exists c'.
    split; [done|]. split; [done|].
    rewrite <- (after_format c s σ (prompt c')). exact Hf'.
Qed.

(** A turn starts in the context its predecessor left. *)
Lemma turns_context cs σ ss :
  turns cs σ ss → ∀ i s, ss !! i = Some s →
  step_context (state_before cs ss σ (S i))
  = step_prompt s +:+ step_response s.
Proof.
  induction 1 as [|c cs σ s ss Ht Hf Hrest IH]; intros i s0 Hi; [done|].
  destruct i as [|i]; simpl in *.
  - injection Hi as <-. destruct cs, ss; done.
  - apply (IH i s0 Hi).
Qed.

Lemma turns_accumulate (own : step → string) cs σ ss :
  turns cs σ ss →
  (∀ i s, ss !! i = Some s →
     step_prompt s = step_context (state_before cs ss σ i) +:+ own s) →
  ∀ i, i ≤ length ss →
    step_context (state_before cs ss σ i)
    = context σ +:+ accumulated own (take i ss).
Proof.
  induction 1 as [|c cs σ s ss Ht Hf Hrest IH]; intros Hown i Hi.
  - destruct i; simpl in *; [|lia]. by rewrite append_empty_r.
  - destruct i as [|i]; simpl in *.
    + by rewrite append_empty_r.
    + rewrite IH; [| |lia].
      * unfold after; simpl. rewrite (Hown 0 s eq_refl). simpl.
        unfold step_context. by rewrite !append_assoc.
      * intros j s' Hj. apply (Hown (S j) s' Hj).
Qed.

Lemma NoDup_prompts_ne (cs : list LLMChain) i j c c' :
  NoDup (prompt <$> cs) → cs !! i = Some c → cs !! j = Some c' → i ≠ j →
  prompt c ≠ prompt c'.
Proof.
  intros Hnd Hi Hj Hne Heq. apply Hne.
  apply (NoDup_lookup (prompt <$> cs) i j (prompt c) Hnd).
  - by rewrite list_lookup_fmap, Hi.
  - by rewrite list_lookup_fmap, Hj, Heq.
Qed.

(** What line 155 and line 161 do together.  In every call of the
    context-accumulating chain, the template a
    step runs with is the running context prepended to the template its
    prompt object holds at that moment.  For the first step the running
    context is the context field the call starts from; for every later step
    it is the rendered prompt of the step before followed by that step's
    response, that prompt being itself rendered from a template that starts
    with the context before it.  So the template of a step is at least as
    long as its predecessor's prompt and response together; with prompt
    objects that are not shared the template held is the one the call
    started with; and whenever rendering leaves the context text as it is,
    the running context of a step is the initial context followed by, for
    each earlier step in order, what that step's own template rendered to
    and its response. *)
Lemma context_is_prepended (self : t) (inputs : gmap string string)
    (σ : state) :
  let cs := chains self in
  let ss := steps (_call self inputs σ).2.1 in
  (∀ s, ss !! 0 = Some s →
     ∃ c, cs !! 0 = Some c ∧ step_template s = context σ +:+ step_base σ c)
  ∧ (∀ i s s', ss !! i = Some s → ss !! S i = Some s' →
       ∃ c', cs !! S i = Some c'
         ∧ step_context (state_before cs ss σ (S i))
           = step_prompt s +:+ step_response s
         ∧ step_template s'
           = (step_prompt s +:+ step_response s)
             +:+ step_base (state_before cs ss σ (S i)) c'
         ∧ format (heap σ (prompt c')) (step_template s')
             (step_used_values s') = Ok (step_prompt s')
         ∧ String.length (step_prompt s) + String.length (step_response s)
           ≤ String.length (step_template s')
         ∧ (NoDup (prompt <$> cs) →
            step_base (state_before cs ss σ (S i)) c' = step_base σ c'))
  ∧ (∀ own : step → string,
       (∀ i s, ss !! i = Some s →
          step_prompt s = step_context (state_before cs ss σ i) +:+ own s) →
       ∀ i s, ss !! i = Some s →
         ∃ c, cs !! i = Some c
           ∧ step_template s
             = (context σ +:+ accumulated own (take i ss))
               +:+ step_base (state_before cs ss σ i) c).
Proof.
  intros cs ss.
  assert (turns cs σ ss) as Hturns.
  { subst cs ss. rewrite call_steps. apply run_chains_turns. }
  split; [|split].
  - intros s Hs. destruct (turns_at _ _ _ Hturns 0 s Hs) as (c & Hc & Ht & _).
    by exists c.
  - intros i s s' Hs Hs'.
    destruct (turns_at _ _ _ Hturns (S i) s' Hs') as (c' & Hc' & Ht & Hf).
    pose proof (turns_context _ _ _ Hturns i s Hs) as Hctx.
    exists c'. split; [done|]. split; [done|]. rewrite Ht, Hctx.
    split; [done|]. split; [by rewrite <- Hctx, <- Ht|]. split.
    + rewrite !length_append. lia.
    + intros Hnd. unfold step_base. f_equal. apply state_before_frame.
      intros j c Hj Hc. eapply NoDup_prompts_ne; eauto. lia.
  - intros own Hown i s Hs.
    destruct (turns_at _ _ _ Hturns i s Hs) as (c & Hc & Ht & _).
    exists c. split; [done|]. rewrite Ht. f_equal.
    apply (turns_accumulate own _ _ _ Hturns Hown).
    apply lookup_lt_Some in Hs. lia.
Qed.

Lemma example_first_call :
  steps (_call example_chain {[ "q" := "why" ]} fresh).2.1 = example_steps.
Proof. vm_compute. reflexivity. Defined.

Lemma context_is_prepended_witness :
  ∃ s s' c',
    example_steps !! 1 = Some s ∧ example_steps !! 2 = Some s'
    ∧ chains example_chain !! 2 = Some c'
    ∧ step_template s'
      = (step_prompt s +:+ step_response s) +:+ step_base fresh c'
    ∧ String.length (step_prompt s) + String.length (step_response s)
      ≤ String.length (step_template s')
    ∧ step_template s'
      = ("" +:+ accumulated example_own (take 2 example_steps))
        +:+ step_base fresh c'.
Proof.
  pose proof (context_is_prepended example_chain {[ "q" := "why" ]} fresh)
    as (_ & Hstep & Hall).
  rewrite example_first_call in Hstep, Hall.
  destruct (Hstep 1 _ _ eq_refl eq_refl)
    as (c' & Hc' & _ & Htemplate & _ & Hlen & Hbase).
  assert (c' = answering 2 "a3" "done.") as ->
    by (simpl in Hc'; congruence).
  assert (NoDup (prompt <$> chains example_chain)) as Hnd
    by (apply (bool_decide_unpack _); vm_compute; exact I).
  do 3 eexists. split; [reflexivity|]. split; [reflexivity|].
  split; [exact Hc'|]. split; [|split; [exact Hlen|]].
  - rewrite Htemplate, (Hbase Hnd). reflexivity.
  - destruct (Hall example_own) with (i := 2) (s := example_third_step)
      as (c & Hc & Hacc); [|reflexivity|].
    + intros [|[|[|i]]] s Hs; simpl in Hs; try discriminate Hs;
        injection Hs as <-; vm_compute; reflexivity.
    + rewrite Hc' in Hc. injection Hc as <-.
      etransitivity; [exact Hacc|]. vm_compute. reflexivity.
Defined.

(** A completed run leaves the prompt objects of other chains as they were. *)
Lemma completes_frame cs σ ss σ' :
  completes cs σ ss σ' → ∀ l, l ∉ prompt <$> cs → heap σ' l = heap σ l.
Proof.
  induction 1 as [|c cs σ s ss σ' _ _ _ IH]; intros l Hl; [done|].
  rewrite IH.
  - unfold after; simpl. apply fn_lookup_insert_ne. intros Heq. subst l.
    apply Hl. simpl. apply list_elem_of_here.
  - intros Hin. apply Hl. simpl. by apply list_elem_of_further.
Qed.

Lemma completes_last cs σ ss σ' :
  completes cs σ ss σ' → ∀ s, list.last ss = Some s →
  context σ' = step_prompt s +:+ step_response s.
Proof.
  induction 1 as [|c cs σ s ss σ' _ _ Hrest IH]; intros s0 Hlast; [done|].
  destruct ss as [|s' ss].
  - inversion Hrest; subst. injection Hlast as <-. done.
  - apply IH. by rewrite last_cons_cons in Hlast.
Qed.

(** With prompt objects that are not shared, each one ends up holding the
    template its step ran with. *)
Lemma completes_final_template cs σ ss σ' :
  completes cs σ ss σ' → NoDup (prompt <$> cs) →
  ∀ i c s, cs !! i = Some c → ss !! i = Some s →
  template (heap σ' (prompt c)) = step_template s.
Proof.
  induction 1 as [|c cs σ s ss σ' _ _ Hrest IH]; intros Hnd i c0 s0 Hc Hs;
    [done|].
  simpl in Hnd. apply list.NoDup_cons in Hnd as [Hnotin Hnd].
  destruct i as [|i]; simpl in *.
  - injection Hc as <-. injection Hs as <-.
    rewrite (completes_frame _ _ _ _ Hrest _ Hnotin). unfold after; simpl.
    by rewrite fn_lookup_insert.
  - by apply (IH Hnd i).
Qed.

(** C10. A call that returns leaves a changed state behind.  The context
    field holds the prompt and the response of the last step; with prompt
    objects that are not shared, each sub-chain's prompt holds the context
    its step found prepended to the template it had, and no other prompt
    object is touched.  So the first step of a second call on the same
    object runs with the last prompt and response of the first call
    prepended to the template its first step ran with, which is a different
    template as soon as that prompt and response are not both empty. *)
Theorem call_is_not_repeat_safe (self : t) (inputs : gmap string string)
    (σ σ' : state) (log : list event) (result : gmap string string) :
  _call self inputs σ = (σ', (log, Ok result)) →
  length (steps log) = length (chains self)
  ∧ (∀ s, list.last (steps log) = Some s →
       context σ' = step_prompt s +:+ step_response s)
  ∧ (NoDup (prompt <$> chains self) →
     ∀ i c s, chains self !! i = Some c → steps log !! i = Some s →
       template (heap σ' (prompt c)) = step_template s
       ∧ step_template s
         = step_context (state_before (chains self) (steps log) σ i)
           +:+ template (heap σ (prompt c)))
  ∧ (∀ l, l ∉ prompt <$> chains self → heap σ' l = heap σ l)
  ∧ (∀ inputs2 s1 s_last s2,
       NoDup (prompt <$> chains self) →
       steps log !! 0 = Some s1 →
       list.last (steps log) = Some s_last →
       steps (_call self inputs2 σ').2.1 !! 0 = Some s2 →
       step_template s2
       = (step_prompt s_last +:+ step_response s_last) +:+ step_template s1
       ∧ (step_prompt s_last +:+ step_response s_last ≠ "" →
          step_template s2 ≠ step_template s1)).
Proof.
  intros [final Hrun]%call_Ok.
  pose proof (run_chains_completes _ _ _ _ _ _ _ _ Hrun) as Hdone.
  pose proof (completes_turns _ _ _ _ Hdone) as Hturns.
  split; [by eapply completes_length|].
  split; [by eapply completes_last|].
  split; [|split; [by eapply completes_frame|]].
  - intros Hnd i c s Hc Hs.
    split; [by eapply completes_final_template|].
    destruct (turns_at _ _ _ Hturns i s Hs) as (c' & Hc' & Ht & _).
    rewrite Hc in Hc'. injection Hc' as <-. rewrite Ht. f_equal.
    unfold step_base. f_equal. destruct i as [|i]; [done|].
    apply state_before_frame. intros j cj Hj Hcj.
    eapply NoDup_prompts_ne; eauto. lia.
  - intros inputs2 s1 s_last s2 Hnd Hs1 Hlast Hs2.
    assert (turns (chains self) σ' (steps (_call self inputs2 σ').2.1))
      as Hturns2 by (rewrite call_steps; apply run_chains_turns).
    destruct (turns_at _ _ _ Hturns2 0 s2 Hs2) as (c0 & Hc0 & Ht2 & _).
    simpl in Ht2. unfold step_context, step_base in Ht2.
    rewrite (completes_last _ _ _ _ Hdone _ Hlast) in Ht2.
    rewrite (completes_final_template _ _ _ _ Hdone Hnd 0 c0 s1 Hc0 Hs1) in Ht2.
    split; [done|]. intros Hne Heq.
    apply (f_equal String.length) in Heq. rewrite Ht2, length_append in Heq.
    destruct (step_prompt s_last +:+ step_response s_last); [done|].
    simpl in Heq. lia.
Qed.

Lemma call_is_not_repeat_safe_witness :
  context (_call example_chain {[ "q" := "why" ]} fresh).1
  = "Ask why? yes.Then yes.? no.Finally: done."
  ∧ ∃ s2,
      steps (_call example_chain {[ "q" := "why" ]}
               (_call example_chain {[ "q" := "why" ]} fresh).1).2.1 !! 0
      = Some s2
      ∧ step_template s2
        = "Ask why? yes.Then yes.? no.Finally: done." +:+ "Ask {q}? "
      ∧ step_template s2 ≠ "Ask {q}? ".
Proof.
  destruct (_call example_chain {[ "q" := "why" ]} fresh)
    as [σ' [log r]] eqn:Hcall.
  assert (steps log = example_steps) as Hsteps.
  { pose proof example_first_call as H. by rewrite Hcall in H. }
  assert (r = Ok {[ "a3" := "done." ]}) as ->.
  { pose proof (f_equal (λ x, x.2.2) Hcall) as H. simpl in H. rewrite <- H.
    vm_compute. reflexivity. }
  destruct (call_is_not_repeat_safe _ _ _ _ _ _ Hcall)
    as (_ & Hctx & _ & _ & Hsecond).
  rewrite Hsteps in Hctx, Hsecond. simpl.
  split; [by rewrite (Hctx _ eq_refl)|].
  destruct (steps (_call example_chain {[ "q" := "why" ]} σ').2.1 !! 0)
    as [s2|] eqn:Hs2.
  - exists s2. split; [done|].
    destruct (Hsecond {[ "q" := "why" ]} _ _ s2
                ltac:(apply (bool_decide_unpack _); vm_compute; exact I)
                eq_refl eq_refl Hs2) as [Heq Hne].
    split; [exact Heq|]. apply Hne. discriminate.
  - exfalso. pose proof (f_equal (λ x, x.1) Hcall) as H. simpl in H.
    subst σ'. vm_compute in Hs2. discriminate Hs2.
Defined.

End PreviousContext.

(** ** Edges of the construction of the variable-flow chain *)

Section ConstructionEdges.
Import SequentialChain.

Lemma check_chains_app known cs1 cs2 :
  check_chains known (cs1 ++ cs2)
  = (k ← check_chains known cs1; check_chains k cs2).
Proof.
  revert known. induction cs1 as [|c cs1 IH]; intros known; simpl; [done|].
  destruct (check_chain known c) as [k|e]; simpl; [apply IH | done].
Qed.

Lemma outputs_union_take_elem cs i j c k :
  cs !! i = Some c → i < j → k ∈ output_keys c →
  k ∈ outputs_union (take j cs).
Proof.
  intros Hi Hij Hk. unfold outputs_union. apply elem_of_union_list.
  exists (set_of (output_keys c)). split.
  - apply list_elem_of_fmap. exists c. split; [done|].
    apply list_elem_of_lookup. exists i. by rewrite lookup_take_lt.
  - by apply elem_of_list_to_set.
Qed.

Lemma outputs_union_app cs1 cs2 :
  outputs_union (cs1 ++ cs2) = outputs_union cs1 ∪ outputs_union cs2.
Proof. unfold outputs_union. by rewrite fmap_app, union_list_app_L. Qed.

(** The output variables construction settles on are known variables. *)
Lemma validated_outputs_known values values' :
  validate_chains values = Ok values' →
  ∃ ov, output_variables values' = Some ov
        ∧ set_of ov ⊆ final_known values
        ∧ chains values' = chains values
        ∧ input_variables values' = input_variables values
        ∧ return_all values' = return_all values.
Proof.
  unfold validate_chains. intros Hv.
  destruct (known_after_loop values) as [known|e] eqn:Hloop; [|done].
  apply known_after_loop_Ok in Hloop as [-> Hall]. simpl in Hv.
  destruct (output_variables values) as [declared|] eqn:Hov.
  - case_decide as Hm; [|done]. injection Hv as <-. exists declared.
    repeat split; try done. intros k Hk.
    destruct (decide (k ∈ final_known values)); [done|].
    assert (k ∈ set_of declared ∖ final_known values) as Hx
      by (apply elem_of_difference; done).
    rewrite Hm in Hx. by apply not_elem_of_empty in Hx.
  - destruct (default false (return_all values)); simpl in Hv.
    + injection Hv as <-. eexists. repeat split; try done.
      intros k [Hk _]%elem_of_list_to_set%elem_of_elements%elem_of_difference.
      done.
    + unfold last_chain in Hv.
      destruct (list.last (chains values)) as [c|] eqn:Hlast; [|done].
      simpl in Hv. injection Hv as <-. eexists. repeat split; try done.
      apply outputs_union_last in Hlast. unfold final_known.
      simpl. set_solver.
Qed.

(** X1. Construction raises [IndexError], which is not a validation error,
    exactly when the list of sub-chains is empty, no output variables are
    declared and the return-all flag is off: [chains[-1]] is then read on an
    empty list. *)
Theorem validate_chains_IndexError (values : seq_values) :
  validate_chains values = Err IndexError ↔
  chains values = [] ∧ output_variables values = None
  ∧ default false (return_all values) = false.
Proof.
  unfold validate_chains. split.
  - intros Hv.
    destruct (known_after_loop values) as [known|e] eqn:Hloop; simpl in Hv.
    + destruct (output_variables values) as [declared|].
      { case_decide; done. }
      destruct (default false (return_all values)); simpl in Hv; [done|].
      unfold last_chain in Hv.
      destruct (list.last (chains values)) as [c|] eqn:Hlast; [done|].
      by apply last_None in Hlast.
    + apply check_chains_Err in Hloop as [v ->]. done.
  - intros (Hcs & Hov & Hall). unfold known_after_loop.
    rewrite Hcs, Hov, Hall. reflexivity.
Qed.

Lemma validate_chains_IndexError_witness :
  validate_chains (values_no_chains None) = Err IndexError
  ∧ validate_chains (values_no_chains (Some false)) = Err IndexError.
Proof.
  split; apply (proj2 (validate_chains_IndexError _)); repeat split.
Defined.

(** X2. Construction is stable: values that passed, with the output
    variables construction settled on, pass again unchanged; the sub-chains,
    the input variables and the return-all flag are never touched. *)
Theorem validate_chains_stable (values values' : seq_values) :
  validate_chains values = Ok values' →
  validate_chains values' = Ok values'
  ∧ chains values' = chains values
  ∧ input_variables values' = input_variables values
  ∧ return_all values' = return_all values.
Proof.
  intros Hv.
  destruct (validated_outputs_known _ _ Hv) as (ov & Hov & Hsub & Hcs & Hin & Hra).
  split; [|done]. unfold validate_chains in *.
  assert (known_after_loop values' = known_after_loop values) as ->
    by (unfold known_after_loop; by rewrite Hcs, Hin).
  destruct (known_after_loop values) as [known|e] eqn:Hloop; [|done].
  apply known_after_loop_Ok in Hloop as [-> _]. simpl. rewrite Hov.
  case_decide as Hm; [done|]. destruct Hm. set_solver.
Qed.

Lemma validate_chains_stable_witness :
  validate_chains (with_output_variables (values_three_steps None) ["d"])
  = Ok (with_output_variables (values_three_steps None) ["d"]).
Proof.
  apply (validate_chains_stable (values_three_steps None)). reflexivity.
Defined.

(** X3. In a configuration that passes, no sub-chain writes a declared input
    variable and no two sub-chains write the same variable. *)
Theorem validated_outputs_are_fresh (values values' : seq_values) :
  validate_chains values = Ok values' →
  (∀ i c k, chains values !! i = Some c → k ∈ output_keys c →
            k ∉ input_variables values)
  ∧ (∀ i j ci cj k, i < j →
       chains values !! i = Some ci → chains values !! j = Some cj →
       k ∈ output_keys ci → k ∉ output_keys cj).
Proof.
  unfold validate_chains. intros Hv.
  destruct (known_after_loop values) as [known|e] eqn:Hloop; [|done].
  apply known_after_loop_Ok in Hloop as [_ Hall]. split.
  - intros i c k Hi Hk Hin. destruct (Hall i) as [_ Hc]. apply Hc.
    exists c, k. split; [done|]. split; [done|]. unfold known_before.
    apply elem_of_union_l. by apply elem_of_list_to_set.
  - intros i j ci cj k Hij Hi Hj Hki Hkj. destruct (Hall j) as [_ Hc].
    apply Hc. exists cj, k. split; [done|]. split; [done|].
    unfold known_before. apply elem_of_union_r.
    by apply (outputs_union_take_elem _ i j ci k).
Qed.

Lemma validated_outputs_are_fresh_witness :
  (∀ i c k, chains (values_three_steps None) !! i = Some c →
            k ∈ output_keys c → k ∉ ["a"])
  ∧ (∀ i j ci cj k, i < j →
       chains (values_three_steps None) !! i = Some ci →
       chains (values_three_steps None) !! j = Some cj →
       k ∈ output_keys ci → k ∉ output_keys cj).
Proof.
  apply (validated_outputs_are_fresh (values_three_steps None)
           (with_output_variables (values_three_steps None) ["d"])).
  reflexivity.
Defined.

End ConstructionEdges.

(** ** Laws of the construction of the variable-flow chain *)

Section ConstructionLaws.
Import SequentialChain.

Lemma check_chain_same_keys known c c' :
  same_keys c c' → check_chain known c = check_chain known c'.
Proof. intros [Hin Hout]. unfold check_chain. by rewrite Hin, Hout. Qed.

Lemma check_chains_same_keys cs cs' :
  Forall2 same_keys cs cs' →
  ∀ known, check_chains known cs = check_chains known cs'.
Proof.
  induction 1 as [|c c' cs cs' Hc _ IH]; intros known; simpl; [done|].
  rewrite (check_chain_same_keys known c c' Hc).
  destruct (check_chain known c') as [k|e]; simpl; [apply IH | done].
Qed.

(** X4. A configuration that passes still passes with one more step at the
    end, as long as that step reads only known variables and writes only
    fresh ones; the known set grows by the outputs of the step, and when the
    output variables default to the last step they become those of the new
    step. *)
Theorem appending_keeps_valid (values values' : seq_values) (c : Chain) :
  validate_chains values = Ok values' →
  set_of (input_keys c) ⊆ final_known values →
  final_known values ## set_of (output_keys c) →
  ∃ values'',
    validate_chains (with_appended values c) = Ok values''
    ∧ known_after_loop (with_appended values c)
      = Ok (final_known values ∪ set_of (output_keys c))
    ∧ (output_variables values = None →
       default false (return_all values) = false →
       output_variables values'' = Some (output_keys c)).
Proof.
  intros Hv Hin Hout.
  assert (known_after_loop (with_appended values c)
          = Ok (final_known values ∪ set_of (output_keys c))) as Hloop'.
  { unfold validate_chains in Hv.
    destruct (known_after_loop values) as [known|e] eqn:Hloop; [|done].
    apply known_after_loop_Ok in Hloop as Hk. destruct Hk as [-> _].
    unfold known_after_loop in *. simpl. rewrite check_chains_app, Hloop.
    simpl. assert (check_chain (final_known values) c
                   = Ok (final_known values ∪ set_of (output_keys c))) as ->
      by (apply check_chain_Ok; done).
    done. }
  destruct (validated_outputs_known _ _ Hv) as (ov & Hov & Hsub & _).
  unfold validate_chains in *. rewrite Hloop'. simpl.
  destruct (known_after_loop values) as [known|e] eqn:Hloop; [|done].
  apply known_after_loop_Ok in Hloop as [-> _]. simpl in Hv.
  destruct (output_variables values) as [declared|] eqn:Hdecl.
  - case_decide as Hm; [|done]. injection Hv as <-. rewrite Hdecl in Hov.
    injection Hov as <-. case_decide as Hm'.
    + eexists. repeat split; done.
    + destruct Hm'. set_solver.
  - destruct (default false (return_all values)) eqn:Hra; simpl.
    + eexists. repeat split; done.
    + unfold last_chain. rewrite last_snoc. simpl. eexists.
      repeat split; done.
Qed.

Lemma appending_keeps_valid_witness :
  ∃ values'',
    validate_chains
      (with_appended (values_three_steps None) (declared_chain ["d"; "b"] ["e"]))
    = Ok values''
    ∧ known_after_loop
        (with_appended (values_three_steps None)
           (declared_chain ["d"; "b"] ["e"]))
      = Ok (final_known (values_three_steps None) ∪ set_of ["e"])
    ∧ (output_variables (values_three_steps None) = None →
       default false (return_all (values_three_steps None)) = false →
       output_variables values'' = Some ["e"]).
Proof.
  apply (appending_keeps_valid (values_three_steps None)
           (with_output_variables (values_three_steps None) ["d"])
           (declared_chain ["d"; "b"] ["e"])).
  - reflexivity.
  - apply (bool_decide_unpack _). vm_compute. exact I.
  - apply (bool_decide_unpack _). vm_compute. exact I.
Defined.

(** X5. Construction looks only at the sets of keys: two configurations
    whose sub-chains declare the same keys up to order and repetition, with
    the same set of input variables, the same declared outputs and the same
    flag, raise the same exception or both pass. *)
Theorem validation_sees_key_sets (values1 values2 : seq_values) :
  Forall2 same_keys (chains values1) (chains values2) →
  set_of (input_variables values1) = set_of (input_variables values2) →
  output_variables values1 = output_variables values2 →
  return_all values1 = return_all values2 →
  known_after_loop values1 = known_after_loop values2
  ∧ ∀ e, validate_chains values1 = Err e ↔ validate_chains values2 = Err e.
Proof.
  intros Hcs Hin Hov Hra.
  assert (known_after_loop values1 = known_after_loop values2) as Hloop.
  { unfold known_after_loop. rewrite Hin. by apply check_chains_same_keys. }
  split; [done|]. intros e. unfold validate_chains. rewrite Hloop, Hov, Hra.
  destruct (known_after_loop values2) as [known|e']; simpl; [|done].
  destruct (output_variables values2) as [declared|].
  { case_decide; done. }
  destruct (default false (return_all values2)); simpl; [done|].
  unfold last_chain. apply Forall2_length in Hcs as Hlen.
  destruct (list.last (chains values1)) as [c1|] eqn:H1;
    destruct (list.last (chains values2)) as [c2|] eqn:H2; simpl; try done.
  - apply last_None in H2. rewrite H2 in Hlen.
    destruct (chains values1); [done | simpl in Hlen; lia].
  - apply last_None in H1. rewrite H1 in Hlen.
    destruct (chains values2); [done | simpl in Hlen; lia].
Qed.

Lemma validation_sees_key_sets_witness :
  known_after_loop (values_three_steps None)
  = known_after_loop values_three_steps_shuffled
  ∧ ∀ e, validate_chains (values_three_steps None) = Err e ↔
         validate_chains values_three_steps_shuffled = Err e.
Proof.
  apply validation_sees_key_sets; try reflexivity.
  repeat constructor; apply (bool_decide_unpack _); vm_compute; exact I.
Defined.

End ConstructionLaws.

(** ** Calls of the variable-flow chain: failures and printing *)

Section CallEdges.
Import SequentialChain.

Lemma tbind_tret_l {E A B} (a : A) (k : A → traced E B) :
  tbind (tret a) k = k a.
Proof. unfold tbind, tret. by destruct (k a). Qed.

Lemma flows_merges cs env envs final :
  flows cs env envs final → ∃ outs, merges cs env envs outs final.
Proof.
  induction 1 as [env|c cs env out envs final Hcall _ _ [outs IH]].
  - exists []. constructor.
  - exists (out :: outs). by constructor.
Qed.

Lemma merges_length cs env envs outs final :
  merges cs env envs outs final →
  length envs = length cs ∧ length outs = length cs.
Proof. induction 1 as [|? ? ? ? ? ? ? _ _ [? ?]]; simpl; auto. Qed.

(** The loop on sub-chains that all return. *)
Lemma run_chains_merges verbose cs env envs outs final :
  merges cs env envs outs final → ∀ i,
  (run_chains verbose i cs env).2 = Ok final
  ∧ invocations (run_chains verbose i cs env).1 = zip (seq i (length cs)) envs
  ∧ printed (run_chains verbose i cs env).1
    = (if verbose then zip (seq i (length cs)) outs else []).
Proof.
  induction 1 as [env|c cs env out envs outs final Hcall _ IH]; intros i.
  - by destruct verbose.
  - destruct (IH (S i)) as (Hr & Hinv & Hpr).
    cbn [run_chains]. unfold tbind, emit, lift, when, tret. rewrite Hcall.
    destruct (run_chains verbose (S i) cs (out ∪ env)) as [log r] eqn:Hrun.
    simpl in Hr, Hinv, Hpr. subst r.
    destruct verbose; simpl; by rewrite Hinv, Hpr.
Qed.

(** The loop on a list cut in two. *)
Lemma run_chains_app verbose cs1 cs2 : ∀ i env,
  run_chains verbose i (cs1 ++ cs2) env
  = tbind (run_chains verbose i cs1 env)
      (λ env', run_chains verbose (i + length cs1) cs2 env').
Proof.
  induction cs1 as [|c cs1 IH]; intros i env.
  - cbn [run_chains app length]. by rewrite tbind_tret_l, Nat.add_0_r.
  - cbn [run_chains app length]. unfold tbind at 1 3, emit.
    unfold tbind at 1 3, lift. destruct (call c env) as [out|e]; [|done].
    unfold tbind at 1 3, when, emit, tret.
    rewrite IH, <- Nat.add_succ_comm. unfold tbind.
    destruct verbose;
      destruct (run_chains _ (S i) cs1 (out ∪ env)) as [log1 [env1|e1]];
      try done;
      destruct (run_chains _ (S i + length cs1) cs2 env1) as [log2 r2];
      simpl; by rewrite ?(assoc_L (++)).
Qed.

(** X6. When the sub-chains before position [i] return and the one at [i]
    raises, the call raises that exception; the sub-chains up to [i] have
    been called, in order, and none after it. *)
Theorem call_stops_at_failure (self : t) (inputs : gmap string string)
    (i : nat) (c : Chain) (envs outs : list (gmap string string))
    (env : gmap string string) (e : exn) :
  merges (take i (self_chains self)) inputs envs outs env →
  self_chains self !! i = Some c →
  call c env = Err e →
  (_call self inputs).2 = Err e
  ∧ invocations (_call self inputs).1 = zip (seq 0 (S i)) (envs ++ [env]).
Proof.
  intros Hm Hi Hcall.
  destruct (run_chains_merges (self_verbose self) _ _ _ _ _ Hm 0)
    as (Hr & Hinv & _).
  apply merges_length in Hm as [Hlen _].
  assert (length (take i (self_chains self)) = i) as Hi'.
  { rewrite length_take. apply lookup_lt_Some in Hi. lia. }
  rewrite Hi' in *.
  unfold _call. rewrite <- (take_drop_middle _ _ _ Hi), run_chains_app.
  rewrite Hi', Nat.add_0_l.
  destruct (run_chains (self_verbose self) 0 (take i (self_chains self)) inputs)
    as [log r]. simpl in Hr, Hinv. subst r.
  cbn [run_chains]. unfold tbind, emit, lift. rewrite Hcall.
  cbn -[seq zip_with]. split; [done|]. unfold invocations in *.
  rewrite omap_app, Hinv. cbn -[seq zip_with].
  rewrite seq_S, zip_with_app by (by rewrite length_seq). done.
Qed.

Lemma call_stops_at_failure_witness :
  (_call exclaim_broken_join {[ "a" := "hi" ]}).2 = Err (Raised "boom")
  ∧ invocations (_call exclaim_broken_join {[ "a" := "hi" ]}).1
    = zip (seq 0 2)
        ([ {[ "a" := "hi" ]} ] ++ [ {[ "b" := "hi!" ]} ∪ {[ "a" := "hi" ]} ]).
Proof.
  apply (call_stops_at_failure exclaim_broken_join {[ "a" := "hi" ]} 1 broken
           [ {[ "a" := "hi" ]} ] [ {[ "b" := "hi!" ]} ]).
  - simpl. econstructor; [reflexivity | constructor].
  - reflexivity.
  - reflexivity.
Defined.

End CallEdges.

(** ** Calls of the variable-flow chain: what is returned *)

Section CallLaws.
Import SequentialChain.

Lemma select_keys_lookup (known_values : gmap string string) keys picked :
  select_keys known_values keys = Ok picked →
  dom picked = set_of keys
  ∧ ∀ k, k ∈ keys → picked !! k = known_values !! k.
Proof.
  revert picked. induction keys as [|k keys IH]; intros picked; simpl.
  - intros [= <-]. split; [by rewrite dom_empty_L|].
    intros k Hk. by apply elem_of_nil in Hk.
  - destruct (known_values !! k) as [v|] eqn:Hv; [|done].
    destruct (select_keys known_values keys) as [rest|e]; [|done].
    simpl. intros [= <-]. destruct (IH rest eq_refl) as [Hdom Hval]. split.
    + rewrite dom_insert_L, Hdom. unfold set_of. set_solver.
    + intros k' Hk'. destruct (decide (k = k')) as [<-|Hne].
      * by rewrite lookup_insert_eq.
      * rewrite lookup_insert_ne by done. apply Hval.
        apply elem_of_cons in Hk' as [->|]; done.
Qed.

(** The first absent key is the one reported. *)
Lemma select_keys_first_missing (known_values : gmap string string) ks1 k ks2 :
  (∀ k', k' ∈ ks1 → k' ∈ dom known_values) →
  k ∉ dom known_values →
  select_keys known_values (ks1 ++ k :: ks2) = Err (KeyError k).
Proof.
  intros Hks1 Hk. induction ks1 as [|k1 ks1 IH]; simpl.
  - apply not_elem_of_dom in Hk. by rewrite Hk.
  - assert (k1 ∈ dom known_values) as [v ->]%elem_of_dom
      by (apply Hks1, list_elem_of_here).
    rewrite IH; [done|]. intros k' Hk'. by apply Hks1, list_elem_of_further.
Qed.

Lemma select_keys_Err (known_values : gmap string string) keys e :
  select_keys known_values keys = Err e →
  ∃ k, e = KeyError k ∧ k ∈ keys ∧ k ∉ dom known_values.
Proof.
  induction keys as [|k keys IH]; simpl; [done|].
  destruct (known_values !! k) as [v|] eqn:Hv.
  - destruct (select_keys known_values keys) as [rest|e']; [done|].
    simpl. intros [= <-]. destruct (IH eq_refl) as (k' & -> & Hk' & Hn).
    exists k'. split; [done|]. split; [by apply list_elem_of_further | done].
  - intros [= <-]. exists k. split; [done|].
    split; [apply list_elem_of_here | by apply not_elem_of_dom].
Qed.

Lemma call_after_merges self inputs envs outs final :
  merges (self_chains self) inputs envs outs final →
  (_call self inputs).2 = select_keys final (self_output_variables self).
Proof.
  intros Hm.
  destruct (run_chains_merges (self_verbose self) _ _ _ _ _ Hm 0) as (Hr & _).
  unfold _call, tbind, lift.
  destruct (run_chains (self_verbose self) 0 (self_chains self) inputs)
    as [log r]. simpl in Hr. by subst r.
Qed.

(** X7. When every sub-chain returns, the call can only fail on the final
    selection: it raises [KeyError] for the first output variable, in the
    order they are listed, that the final environment does not hold, and it
    returns when the final environment holds them all. *)
Theorem call_reports_missing_output (self : t) (inputs : gmap string string)
    (envs outs : list (gmap string string)) (final : gmap string string) :
  merges (self_chains self) inputs envs outs final →
  (∀ ks1 k ks2, self_output_variables self = ks1 ++ k :: ks2 →
     (∀ k', k' ∈ ks1 → k' ∈ dom final) → k ∉ dom final →
     (_call self inputs).2 = Err (KeyError k))
  ∧ (∀ e, (_call self inputs).2 = Err e →
       ∃ k, e = KeyError k ∧ k ∈ self_output_variables self ∧ k ∉ dom final)
  ∧ (set_of (self_output_variables self) ⊆ dom final →
     ∃ result, (_call self inputs).2 = Ok result).
Proof.
  intros Hm. rewrite (call_after_merges _ _ _ _ _ Hm). split; [|split].
  - intros ks1 k ks2 -> Hks1 Hk. by apply select_keys_first_missing.
  - intros e He. by apply select_keys_Err.
  - intros Hsub. destruct (select_keys_Ok _ _ Hsub) as (r & Hr & _). eauto.
Qed.

Lemma call_reports_missing_output_witness :
  (_call exclaim_join_unchecked {[ "a" := "hi" ]}).2
  = Err (KeyError "nowhere").
Proof.
  refine (proj1 (call_reports_missing_output exclaim_join_unchecked
                   {[ "a" := "hi" ]} _ _ _ _) ["b"] "nowhere" ["c"]
            eq_refl _ _).
  - simpl. econstructor; [reflexivity|].
    econstructor; [reflexivity | constructor].
  - intros k' ->%list_elem_of_singleton.
    apply (bool_decide_unpack _). vm_compute. exact I.
  - apply (bool_decide_unpack (¬ _)). vm_compute. exact I.
Defined.

Lemma run_chains_verbose cs : ∀ i env,
  (run_chains true i cs env).2 = (run_chains false i cs env).2
  ∧ invocations (run_chains true i cs env).1
    = invocations (run_chains false i cs env).1
  ∧ printed (run_chains false i cs env).1 = []
  ∧ (∀ final, (run_chains true i cs env).2 = Ok final →
       (printed (run_chains true i cs env).1).*1 = seq i (length cs)).
Proof.
  induction cs as [|c cs IH]; intros i env; [done|].
  cbn [run_chains]. unfold tbind, emit, lift, when, tret.
  destruct (call c env) as [out|e]; [|done].
  destruct (IH (S i) (out ∪ env)) as (Hr & Hinv & Hq & Hp).
  destruct (run_chains true (S i) cs (out ∪ env)) as [logv rv].
  destruct (run_chains false (S i) cs (out ∪ env)) as [logq rq].
  simpl in *. subst rq. rewrite Hinv, Hq. repeat split.
  intros final Hf. f_equal. by apply (Hp final).
Qed.

(** X8. The verbose flag changes nothing but the printing: with it and
    without it the call returns the same result and calls the sub-chains on
    the same environments; without it nothing is printed, with it a call
    that returns has printed one line per sub-chain, in order. *)
Theorem verbose_only_prints (self : t) (inputs : gmap string string) :
  (_call (with_verbose self true) inputs).2
  = (_call (with_verbose self false) inputs).2
  ∧ invocations (_call (with_verbose self true) inputs).1
    = invocations (_call (with_verbose self false) inputs).1
  ∧ printed (_call (with_verbose self false) inputs).1 = []
  ∧ (∀ result, (_call (with_verbose self true) inputs).2 = Ok result →
       (printed (_call (with_verbose self true) inputs).1).*1
       = seq 0 (length (self_chains self))).
Proof.
  unfold _call. simpl.
  destruct (run_chains_verbose (self_chains self) 0 inputs)
    as (Hr & Hinv & Hq & Hp).
  unfold tbind, lift.
  destruct (run_chains true 0 (self_chains self) inputs) as [logv rv].
  destruct (run_chains false 0 (self_chains self) inputs) as [logq rq].
  simpl in *. subst rq. destruct rv as [final|e]; simpl.
  - rewrite !(right_id_L [] (++)). repeat split; try done.
    intros result _. by apply (Hp final).
  - repeat split; done.
Qed.

End CallLaws.

(** ** Calls of the variable-flow chain: values and composition *)

Section CallValues.
Import SequentialChain.

Lemma verbose_only_prints_witness :
  (printed (_call (with_verbose exclaim_join_chain true) {[ "a" := "hi" ]}).1).*1
  = seq 0 2.
Proof.
  destruct (verbose_only_prints exclaim_join_chain {[ "a" := "hi" ]})
    as (_ & _ & _ & Hlines).
  eapply Hlines. reflexivity.
Defined.

(** A variable no later step writes keeps its value to the end. *)
Lemma flows_lookup_kept cs env envs final k :
  flows cs env envs final →
  (∀ c, c ∈ cs → k ∉ output_keys c) →
  final !! k = env !! k.
Proof.
  induction 1 as [env|c cs env out envs final Hcall Hdom _ IH]; intros Hk;
    [done|].
  rewrite IH.
  - apply lookup_union_r. apply not_elem_of_dom. rewrite Hdom.
    unfold set_of. rewrite elem_of_list_to_set. apply Hk, list_elem_of_here.
  - intros c' Hc'. by apply Hk, list_elem_of_further.
Qed.

(** A variable written by the step at position [i] and by no later one holds
    at the end what that step returned. *)
Lemma flows_lookup_written cs env envs final :
  flows cs env envs final →
  ∀ i c env_i out k,
    cs !! i = Some c → envs !! i = Some env_i → call c env_i = Ok out →
    k ∈ output_keys c →
    (∀ j cj, i < j → cs !! j = Some cj → k ∉ output_keys cj) →
    final !! k = out !! k.
Proof.
  induction 1 as [env|c cs env out envs final Hcall Hdom Hrest IH];
    intros i c0 env_i out0 k Hc Henv Hcall0 Hk Hlater; [done|].
  destruct i as [|i]; simpl in *.
  - injection Hc as <-. injection Henv as <-.
    rewrite Hcall in Hcall0. injection Hcall0 as <-.
    rewrite (flows_lookup_kept _ _ _ _ k Hrest).
    + assert (k ∈ dom out) as [v Hv]%elem_of_dom
        by (rewrite Hdom; by apply elem_of_list_to_set).
      rewrite Hv. by apply lookup_union_Some_l.
    + intros c' [j Hj]%list_elem_of_lookup.
      apply (Hlater (S j) c'); [lia | done].
  - apply (IH i c0 env_i out0 k Hc Henv Hcall0 Hk).
    intros j cj Hij Hcj. apply (Hlater (S j) cj); [lia | done].
Qed.

Lemma flows_result verbose cs env envs final i :
  flows cs env envs final → (run_chains verbose i cs env).2 = Ok final.
Proof.
  intros [outs Hm]%flows_merges.
  by destruct (run_chains_merges verbose _ _ _ _ _ Hm i) as (Hr & _).
Qed.

(** X9. In a call of a validly constructed chain whose sub-chains return
    their declared keys, no declared variable is overwritten: a returned
    variable that is a declared input holds the value the caller passed, and
    a returned variable that a sub-chain declares as output holds the value
    that sub-chain returned, also when the caller passed a value under that
    name. *)
Theorem call_never_overwrites (values : seq_values) (verbose : bool)
    (self : t) (inputs : gmap string string)
    (envs : list (gmap string string)) (final result : gmap string string) :
  construct values verbose = Ok self →
  flows (self_chains self) inputs envs final →
  (_call self inputs).2 = Ok result →
  (∀ k, k ∈ self_input_variables self → k ∈ self_output_variables self →
        result !! k = inputs !! k)
  ∧ (∀ i c env out k,
       self_chains self !! i = Some c → envs !! i = Some env →
       call c env = Ok out → k ∈ output_keys c →
       k ∈ self_output_variables self →
       result !! k = out !! k).
Proof.
  intros (Hcs & Hins & Hall & _)%construct_Ok Hflow Hres.
  assert (∀ k, k ∈ self_output_variables self → result !! k = final !! k)
    as Hsel.
  { unfold _call, tbind, lift in Hres.
    pose proof (flows_result (self_verbose self) _ _ _ _ 0 Hflow) as Hr.
    destruct (run_chains (self_verbose self) 0 (self_chains self) inputs)
      as [log r]. simpl in Hr. subst r.
    destruct (select_keys final (self_output_variables self)) as [picked|e]
      eqn:Hsel; simpl in Hres; [|done].
    injection Hres as <-. by apply select_keys_lookup in Hsel as [_ Hval]. }
  split.
  - intros k Hin Hout. rewrite (Hsel k Hout).
    apply (flows_lookup_kept _ _ _ _ k Hflow).
    intros c [j Hj]%list_elem_of_lookup Hk. rewrite Hcs in Hj.
    destruct (Hall j) as [_ Hc]. apply Hc. exists c, k.
    split; [done|]. split; [done|]. unfold known_before.
    apply elem_of_union_l. rewrite <- Hins. by apply elem_of_list_to_set.
  - intros i c env out k Hc Henv Hcall Hk Hout. rewrite (Hsel k Hout).
    apply (flows_lookup_written _ _ _ _ Hflow i c env out k Hc Henv Hcall Hk).
    intros j cj Hij Hcj Hkj. rewrite Hcs in Hc, Hcj.
    destruct (Hall j) as [_ Hcol]. apply Hcol. exists cj, k.
    split; [done|]. split; [done|]. unfold known_before.
    apply elem_of_union_r. by apply (outputs_union_take_elem _ i j c k).
Qed.

Lemma call_never_overwrites_witness :
  ({[ "c" := "hihi!"; "b" := "hi!" ]} : gmap string string) !! "b"
  = ({[ "b" := "hi!" ]} : gmap string string) !! "b".
Proof.
  refine (proj2 (call_never_overwrites values_exclaim_join true
                   exclaim_join_chain {[ "a" := "hi"; "b" := "old" ]}
                   [ {[ "a" := "hi"; "b" := "old" ]};
                     {[ "b" := "hi!" ]} ∪ {[ "a" := "hi"; "b" := "old" ]} ]
                   ({[ "c" := "hihi!" ]}
                    ∪ ({[ "b" := "hi!" ]} ∪ {[ "a" := "hi"; "b" := "old" ]}))
                   {[ "c" := "hihi!"; "b" := "hi!" ]} eq_refl _ _)
            0 exclaim {[ "a" := "hi"; "b" := "old" ]} {[ "b" := "hi!" ]} "b"
            eq_refl eq_refl eq_refl _ _).
  - econstructor; [reflexivity | reflexivity |].
    econstructor; [reflexivity | reflexivity | constructor].
  - vm_compute. reflexivity.
  - apply list_elem_of_here.
  - apply list_elem_of_further, list_elem_of_here.
Defined.

Lemma run_chains_index verbose cs : ∀ i j env,
  (run_chains verbose i cs env).2 = (run_chains verbose j cs env).2.
Proof.
  induction cs as [|c cs IH]; intros i j env; [done|].
  cbn [run_chains]. unfold tbind, emit, lift, when, tret.
  destruct (call c env) as [out|e]; [|done].
  specialize (IH (S i) (S j) (out ∪ env)).
  destruct verbose;
    destruct (run_chains _ (S i) cs (out ∪ env)) as [log1 r1];
    destruct (run_chains _ (S j) cs (out ∪ env)) as [log2 r2];
    simpl in *; done.
Qed.

(** X10. A chain cut in two composes: when the sub-chains of the first part
    return and leave the environment [env'], calling the whole list on the
    inputs gives what calling the second part on [env'] gives. *)
Theorem call_composes (self : t) (cs1 cs2 : list Chain)
    (inputs : gmap string string) (envs outs : list (gmap string string))
    (env' : gmap string string) :
  merges cs1 inputs envs outs env' →
  (_call (with_chains self (cs1 ++ cs2)) inputs).2
  = (_call (with_chains self cs2) env').2.
Proof.
  intros Hm. unfold _call. simpl. rewrite run_chains_app.
  destruct (run_chains_merges (self_verbose self) _ _ _ _ _ Hm 0) as (Hr & _).
  pose proof (run_chains_index (self_verbose self) cs2 (0 + length cs1) 0 env')
    as Hidx.
  unfold tbind, lift.
  destruct (run_chains (self_verbose self) 0 cs1 inputs) as [log1 r1].
  simpl in Hr. subst r1.
  destruct (run_chains (self_verbose self) (0 + length cs1) cs2 env')
    as [log2 r2].
  destruct (run_chains (self_verbose self) 0 cs2 env') as [log3 r3].
  simpl in Hidx. subst r3. by destruct r2.
Qed.

Lemma call_composes_witness :
  (_call (with_chains exclaim_join_chain ([exclaim] ++ [join]))
     {[ "a" := "hi" ]}).2
  = (_call (with_chains exclaim_join_chain [join])
       ({[ "b" := "hi!" ]} ∪ {[ "a" := "hi" ]})).2.
Proof.
  apply (call_composes exclaim_join_chain [exclaim] [join] {[ "a" := "hi" ]}
           [ {[ "a" := "hi" ]} ] [ {[ "b" := "hi!" ]} ]).
  econstructor; [reflexivity | constructor].
Defined.

End CallValues.

(** ** The single-I/O pipeline: any length, failures, trimming *)

Section Pipeline.
Import SimpleSequentialChain.

(** The loop on sub-chains that compute functions, with its events. *)
Lemma run_chains_values self cs fs :
  Forall2 computes cs fs → ∀ i x,
  run_chains self i cs x
  = (if verbose self then text_events i (stage_values self fs x) else [],
     Ok (foldl (λ v f, stage self f v) x fs)).
Proof.
  induction 1 as [|c f cs fs Hc _ IH]; intros i x.
  - by destruct (verbose self).
  - cbn [run_chains stage_values foldl text_events]. rewrite Hc.
    unfold tbind, lift, when, emit, tret.
    specialize (IH (S i) (stage self f x)). unfold stage in *.
    destruct (strip_outputs self), (verbose self); cbn; rewrite IH; done.
Qed.

Lemma simple_run_chains_app self cs1 cs2 : ∀ i x,
  run_chains self i (cs1 ++ cs2) x
  = tbind (run_chains self i cs1 x)
      (λ v, run_chains self (i + length cs1) cs2 v).
Proof.
  induction cs1 as [|c cs1 IH]; intros i x.
  - cbn [run_chains app length]. unfold tbind, tret.
    rewrite Nat.add_0_r. by destruct (run_chains self i cs2 x).
  - cbn [run_chains app length]. unfold tbind at 1 3, lift.
    destruct (run c x) as [y|e]; [|done].
    unfold tbind at 1 3, when, emit, tret.
    rewrite IH, <- Nat.add_succ_comm. unfold tbind.
    destruct (strip_outputs self), (verbose self);
      destruct (run_chains self (S i) cs1 _) as [log1 [v1|e1]]; try done;
      destruct (run_chains self (S i + length cs1) cs2 v1) as [log2 r2];
      simpl; by rewrite ?(assoc_L (++)).
Qed.

(** X11. A single-I/O chain over any number of sub-chains that compute
    functions returns, under its output key, the input threaded through all
    stages in list order (the input itself when there is no sub-chain); when
    verbose it emits one text event per stage, carrying the value after that
    stage and the position of the stage, and none otherwise. *)
Theorem pipeline_of_any_length (self : t) (fs : list (string → string))
    (inputs : gmap string string) (x : string) :
  Forall2 computes (chains self) fs →
  inputs !! input_key self = Some x →
  _call self inputs
  = (if verbose self then text_events 0 (stage_values self fs x) else [],
     Ok {[ output_key self := foldl (λ v f, stage self f v) x fs ]}).
Proof.
  intros Hfs Hx. unfold _call, getitem. rewrite Hx. unfold lift, tbind, tret.
  rewrite (run_chains_values self _ fs Hfs 0 x). simpl.
  by rewrite (right_id_L [] (++)).
Qed.

Lemma pipeline_of_any_length_witness :
  _call (simple [text_chain pad; text_chain shout] true true)
    {[ "input" := "hi" ]}
  = ([OnText "hi" 0; OnText "hi!" 1], Ok {[ "output" := "hi!" ]})
  ∧ _call (simple [] true true) {[ "input" := " hi " ]}
    = ([], Ok {[ "output" := " hi " ]}).
Proof.
  split.
  - apply (pipeline_of_any_length
             (simple [text_chain pad; text_chain shout] true true)
             [pad; shout] {[ "input" := "hi" ]} "hi").
    + repeat constructor.
    + reflexivity.
  - apply (pipeline_of_any_length (simple [] true true) []
             {[ "input" := " hi " ]} " hi ").
    + constructor.
    + reflexivity.
Defined.

(** X12. The two ways a call fails.  Without the input key it raises
    [KeyError] before any sub-chain runs.  When the sub-chains before some
    position compute functions and the one at that position raises, the call
    raises that exception; the text events of the earlier stages have been
    emitted, and no later sub-chain contributes any. *)
Theorem pipeline_failures (self : t) (inputs : gmap string string) :
  (inputs !! input_key self = None →
   _call self inputs = ([], Err (KeyError (input_key self))))
  ∧ (∀ cs1 c cs2 fs1 x e,
       chains self = cs1 ++ c :: cs2 →
       Forall2 computes cs1 fs1 →
       inputs !! input_key self = Some x →
       run c (foldl (λ v f, stage self f v) x fs1) = Err e →
       _call self inputs
       = (if verbose self then text_events 0 (stage_values self fs1 x) else [],
          Err e)).
Proof.
  split.
  - intros Hx. unfold _call, getitem. by rewrite Hx.
  - intros cs1 c cs2 fs1 x e Hcs Hfs Hx Hrun.
    unfold _call, getitem. rewrite Hx, Hcs. unfold lift, tbind, tret.
    rewrite simple_run_chains_app, (run_chains_values self _ fs1 Hfs 0 x).
    unfold tbind. cbn [run_chains]. unfold tbind, lift.
    rewrite Hrun. simpl. by rewrite !(right_id_L [] (++)).
Qed.

Lemma pipeline_failures_witness :
  _call (simple [text_chain pad] true true) {[ "text" := "hi" ]}
  = ([], Err (KeyError "input"))
  ∧ _call (simple [text_chain shout; broken_text; text_chain pad] false true)
      {[ "input" := "hi" ]}
    = ([OnText "hi!" 0], Err (Raised "boom")).
Proof.
  split.
  - apply (proj1 (pipeline_failures (simple [text_chain pad] true true)
                    {[ "text" := "hi" ]})).
    reflexivity.
  - apply (proj2 (pipeline_failures
                    (simple [text_chain shout; broken_text; text_chain pad]
                       false true) {[ "input" := "hi" ]})
             [text_chain shout] broken_text [text_chain pad] [shout] "hi").
    + reflexivity.
    + repeat constructor.
    + reflexivity.
    + reflexivity.
Defined.

Lemma append_nil_l (s : string) : "" +:+ s = s.
Proof. reflexivity. Qed.

Lemma append_cons (a : ascii) (s t : string) :
  String a s +:+ t = String a (s +:+ t).
Proof. reflexivity. Qed.

Lemma append_snoc_nonempty (pre : string) (c : ascii) :
  pre +:+ String c EmptyString ≠ EmptyString.
Proof. destruct pre; [rewrite append_nil_l | rewrite append_cons]; done. Qed.

Lemma lstrip_head s c rest :
  lstrip s = String c rest → isspace c = false.
Proof.
  induction s as [|a s IH]; simpl; [done|].
  destruct (isspace a) eqn:Ha; [done|]. by intros [= <- _].
Qed.

Lemma rstrip_head s c rest :
  rstrip s = String c rest → ∃ rest', s = String c rest'.
Proof.
  destruct s as [|a s]; simpl; [done|].
  destruct (rstrip s) as [|b k].
  - destruct (isspace a); [done|]. intros [= <- _]. eauto.
  - intros [= <- _]. eauto.
Qed.

Lemma rstrip_last s : ∀ pre c,
  rstrip s = pre +:+ String c EmptyString → isspace c = false.
Proof.
  induction s as [|a s IH]; intros pre c; simpl.
  - intros H. symmetry in H. by apply append_snoc_nonempty in H.
  - destruct (rstrip s) as [|b k] eqn:Hr.
    + destruct (isspace a) eqn:Ha.
      * intros H. symmetry in H. by apply append_snoc_nonempty in H.
      * destruct pre as [|p pre].
        -- rewrite append_nil_l. by intros [= <-].
        -- rewrite append_cons. intros [= _ H].
           symmetry in H. by apply append_snoc_nonempty in H.
    + destruct pre as [|p pre].
      * rewrite append_nil_l. intros H. inversion H.
      * rewrite append_cons. intros [= _ H]. by apply (IH pre c).
Qed.

Lemma strip_trimmed w : trimmed (strip w).
Proof.
  unfold trimmed, strip. split.
  - intros c rest [rest' H]%rstrip_head. by apply lstrip_head in H.
  - intros pre c H. by apply rstrip_last in H.
Qed.

Lemma run_chains_last_stripped self :
  strip_outputs self = true →
  ∀ cs i x v, cs ≠ [] → (run_chains self i cs x).2 = Ok v → ∃ w, v = strip w.
Proof.
  intros Hstrip cs. induction cs as [|c cs IH]; intros i x v Hne; [done|].
  cbn [run_chains]. unfold tbind, lift, when, emit, tret. rewrite Hstrip.
  destruct (run c x) as [y|e]; [|done].
  destruct cs as [|c' cs].
  - destruct (verbose self); simpl; intros [= <-]; eauto.
  - specialize (IH (S i) (strip y)).
    destruct (verbose self);
      destruct (run_chains self (S i) (c' :: cs) (strip y)) as [log r];
      simpl in *; intros ->; by eapply IH.
Qed.

(** X13. With the strip-outputs flag and at least one sub-chain, the value a
    call returns under the output key has no whitespace at either end,
    whatever the sub-chains compute. *)
Theorem stripped_output_is_trimmed (self : t) (inputs out : gmap string string) :
  strip_outputs self = true →
  chains self ≠ [] →
  (_call self inputs).2 = Ok out →
  ∃ v, out = {[ output_key self := v ]} ∧ trimmed v.
Proof.
  intros Hstrip Hne. unfold _call, tbind, lift, tret.
  destruct (getitem inputs (input_key self)) as [x|e]; [|done].
  pose proof (run_chains_last_stripped self Hstrip (chains self) 0 x) as Hlast.
  destruct (run_chains self 0 (chains self) x) as [log [v|e]]; [|done].
  simpl. intros [= <-]. destruct (Hlast v Hne eq_refl) as [w ->].
  exists (strip w). split; [done | apply strip_trimmed].
Qed.

Lemma stripped_output_is_trimmed_witness :
  ∃ v, ({[ "output" := "hi!" ]} : gmap string string) = {[ "output" := v ]}
       ∧ trimmed v.
Proof.
  apply (stripped_output_is_trimmed
           (simple [text_chain pad; text_chain shout; text_chain pad] true false)
           {[ "input" := "hi" ]}).
  - reflexivity.
  - discriminate.
  - reflexivity.
Defined.

End Pipeline.

(** ** The context-accumulating chain: what steps are handed, what a failure
    leaves *)

Section PreviousContextEdges.
Import SequentailChainWithPreviousContext.

Lemma after_input_variables c s σ l :
  input_variables (heap (after c s σ) l) = input_variables (heap σ l).
Proof.
  unfold after; simpl. destruct (decide (prompt c = l)) as [<-|Hne].
  - by rewrite fn_lookup_insert.
  - by rewrite fn_lookup_insert_ne.
Qed.

(** Each completed step was handed exactly the variables its prompt
    declares, and carries its position. *)
Lemma run_chains_handed self cs : ∀ i known_values σ j s,
  steps (run_chains self i cs known_values σ).2.1 !! j = Some s →
  ∃ c, cs !! j = Some c
    ∧ step_index s = i + j
    ∧ dom (step_used_values s)
      = set_of (input_variables (heap σ (prompt c))).
Proof.
  induction cs as [|c cs IH]; intros i known_values σ j s0; [done|].
  cbn [run_chains]. unfold bind at 1. unfold prepend_context, bind, get, put,
    ret, tret. cbn -[run_chains select_keys].
  set (p' := set_template (heap σ (prompt c))
               (context σ +:+ template (heap σ (prompt c)))).
  unfold try, lift.
  destruct (select_keys known_values (input_variables (heap σ (prompt c))))
    as [used|e] eqn:Hsel; cbn -[run_chains]; [|done].
  destruct (invoke c p' used) as [outputs|e]; cbn -[run_chains]; [|done].
  destruct (format (heap σ (prompt c))
              (context σ +:+ template (heap σ (prompt c))) used)
    as [prompt_text|e] eqn:Hfmt; cbn -[run_chains]; [|done].
  destruct (getitem outputs (output_key c)) as [response|e];
    cbn -[run_chains]; [|done].
  unfold set_context, tell, emit, bind, get, put, tret. cbn -[run_chains].
  set (s := {| step_index := i;
               step_template := context σ +:+ template (heap σ (prompt c));
               step_used_values := used; step_prompt := prompt_text;
               step_response := response |}).
  specialize (IH (S i) (outputs ∪ known_values) (after c s σ)).
  unfold after in IH. cbn -[run_chains] in IH.
  destruct (verbose self); cbn -[run_chains];
    destruct (run_chains self (S i) cs (outputs ∪ known_values) _)
      as [σ2 [log2 r2]]; cbn -[run_chains] in *;
    (destruct j as [|j]; cbn;
     [ intros [= <-]; exists c; split; [done|]; split; [simpl; lia|];
       by apply select_keys_lookup in Hsel as [Hdom _]
     | intros Hj; destruct (IH j s0 Hj) as (c' & Hc' & Hidx & Hdom);
       exists c'; split; [done|]; split; [lia|];
       rewrite Hdom; f_equal;
       apply (after_input_variables c s σ (prompt c')) ]).
Qed.

(** X14. In every call of the context-accumulating chain, a completed step
    was handed exactly the input variables its prompt declares, not the
    whole environment, and the steps are numbered by their position in the
    list. *)
Theorem steps_are_handed_prompt_variables (self : t)
    (inputs : gmap string string) (σ : state) (j : nat) (s : step) :
  steps (_call self inputs σ).2.1 !! j = Some s →
  ∃ c, chains self !! j = Some c
    ∧ step_index s = j
    ∧ dom (step_used_values s)
      = set_of (input_variables (heap σ (prompt c))).
Proof.
  rewrite call_steps. intros Hs.
  destruct (run_chains_handed self _ 0 inputs σ j s Hs)
    as (c & Hc & Hidx & Hdom).
  exists c. by rewrite Hidx.
Qed.

Lemma steps_are_handed_prompt_variables_witness :
  ∃ c, chains example_chain !! 1 = Some c
    ∧ 1 = 1
    ∧ dom ({[ "a1" := "yes." ]} : gmap string string)
      = set_of (input_variables (heap fresh (prompt c))).
Proof.
  pose proof (steps_are_handed_prompt_variables example_chain
                {[ "q" := "why" ]} fresh 1) as Hstep.
  rewrite example_first_call in Hstep.
  apply (Hstep _ eq_refl).
Defined.

(** The state a step leaves when it fails after line 155: its template is
    rewritten, the context is not. *)
Lemma run_chains_failure self cs : ∀ i known_values σ σ' log e,
  run_chains self i cs known_values σ = (σ', (log, Err e)) →
  ∃ c, cs !! length (steps log) = Some c
    ∧ σ' = let σn := state_before cs (steps log) σ (length (steps log)) in
           {| heap := <[prompt c
                        := set_template (heap σn (prompt c))
                             (context σn +:+ template (heap σn (prompt c)))]>
                        (heap σn);
              context := context σn |}.
Proof.
  induction cs as [|c cs IH]; intros i known_values σ σ' log e; [done|].
  cbn [run_chains]. unfold bind at 1. unfold prepend_context, bind, get, put,
    ret, tret. cbn -[run_chains select_keys].
  set (p' := set_template (heap σ (prompt c))
               (context σ +:+ template (heap σ (prompt c)))).
  unfold try, lift.
  destruct (select_keys known_values (input_variables (heap σ (prompt c))))
    as [used|e0] eqn:Hsel; cbn -[run_chains];
    [|intros [= <- <- _]; by exists c].
  destruct (invoke c p' used) as [outputs|e0]; cbn -[run_chains];
    [|intros [= <- <- _]; by exists c].
  destruct (format (heap σ (prompt c))
              (context σ +:+ template (heap σ (prompt c))) used)
    as [prompt_text|e0] eqn:Hfmt; cbn -[run_chains];
    [|intros [= <- <- _]; by exists c].
  destruct (getitem outputs (output_key c)) as [response|e0];
    cbn -[run_chains]; [|intros [= <- <- _]; by exists c].
  unfold set_context, tell, emit, bind, get, put, tret. cbn -[run_chains].
  set (s := {| step_index := i;
               step_template := context σ +:+ template (heap σ (prompt c));
               step_used_values := used; step_prompt := prompt_text;
               step_response := response |}).
  specialize (IH (S i) (outputs ∪ known_values) (after c s σ)).
  unfold after in IH. cbn -[run_chains] in IH.
  destruct (verbose self); cbn -[run_chains];
    destruct (run_chains self (S i) cs (outputs ∪ known_values) _)
      as [σ2 [log2 [final2|e2]]]; cbn -[run_chains]; try done;
    intros [= <- <- _];
    destruct (IH _ _ _ eq_refl) as (c' & Hc' & Hσ);
    exists c'; split; done.
Qed.

(** X15. A call that fails inside the loop is not rolled back.  The step
    that failed is the one after the completed ones; its prompt holds the
    context prepended to the template it had, every other prompt and the
    context field are as the completed steps left them. *)
Theorem failed_call_keeps_rewritten_template (self : t)
    (inputs : gmap string string) (σ σ' : state) (log : list event) (e : exn) :
  _call self inputs σ = (σ', (log, Err e)) →
  length (steps log) < length (chains self) →
  let n := length (steps log) in
  let σn := state_before (chains self) (steps log) σ n in
  ∃ c, chains self !! n = Some c
    ∧ template (heap σ' (prompt c)) = context σn +:+ template (heap σn (prompt c))
    ∧ context σ' = context σn
    ∧ ∀ l, l ≠ prompt c → heap σ' l = heap σn l.
Proof.
  intros Hcall Hlen n σn. unfold _call, bind, try, lift in Hcall.
  destruct (run_chains self 0 (chains self) inputs σ)
    as [σ1 [log1 [final|e1]]] eqn:Hrun.
  - exfalso. apply run_chains_completes in Hrun as Hdone.
    apply completes_length in Hdone.
    destruct (select_keys final (output_variables self));
      simpl in Hcall; injection Hcall as <- <-;
      rewrite (right_id_L [] (++)) in Hlen; lia.
  - injection Hcall as <- <- <-.
    destruct (run_chains_failure _ _ _ _ _ _ _ _ Hrun) as (c & Hc & ->).
    exists c. split; [done|]. simpl. split; [by rewrite fn_lookup_insert|].
    split; [done|]. intros l Hl. by rewrite fn_lookup_insert_ne.
Qed.

Lemma failed_call_keeps_rewritten_template_witness :
  (_call example_chain ∅ stale).2.2 = Err (KeyError "q")
  ∧ template (heap (_call example_chain ∅ stale).1 0) = "old Ask {q}? "
  ∧ context (_call example_chain ∅ stale).1 = "old ".
Proof.
  destruct (_call example_chain ∅ stale) as [σ' [log r]] eqn:Hcall.
  assert (log = []) as ->.
  { pose proof (f_equal (λ x, x.2.1) Hcall) as H. simpl in H. rewrite <- H.
    reflexivity. }
  assert (r = Err (KeyError "q")) as ->.
  { pose proof (f_equal (λ x, x.2.2) Hcall) as H. simpl in H. rewrite <- H.
    reflexivity. }
  destruct (failed_call_keeps_rewritten_template _ _ _ _ _ _ Hcall)
    as (c & Hc & Htemplate & Hcontext & _).
  - simpl. lia.
  - simpl in Hc. injection Hc as <-. simpl in *.
    split; [done|]. split; [exact Htemplate | exact Hcontext].
Defined.

End PreviousContextEdges.

(** ** The fake model of the tests *)

Section FakeModel.

Lemma index_of_nat (l : list string) (n : nat) :
  FakeListLLM.index l (Z.of_nat n) = response_at l n.
Proof.
  unfold FakeListLLM.index, response_at.
  assert ((Z.of_nat n <? 0)%Z = false) as -> by (apply Z.ltb_ge; lia).
  destruct (decide (n < length l)) as [Hlt|Hge].
  - assert (((0 <=? Z.of_nat n) && (Z.of_nat n <? Z.of_nat (length l)))%Z
            = true) as ->.
    { apply andb_true_iff. split; [apply Z.leb_le | apply Z.ltb_lt]; lia. }
    by rewrite Nat2Z.id.
  - assert (((0 <=? Z.of_nat n) && (Z.of_nat n <? Z.of_nat (length l)))%Z
            = false) as ->.
    { apply andb_false_iff. right. apply Z.ltb_ge. lia. }
    by rewrite lookup_ge_None_2 by lia.
Qed.

Lemma replay_from (responses prompts : list string) : ∀ n self,
  FakeListLLM.responses self = responses →
  FakeListLLM.i self = (Z.of_nat n - 1)%Z →
  replay self prompts = response_at responses <$> seq n (length prompts)
  ∧ FakeListLLM.i (after_calls self prompts)
    = (Z.of_nat (n + length prompts) - 1)%Z
  ∧ FakeListLLM.responses (after_calls self prompts) = responses.
Proof.
  induction prompts as [|p prompts IH]; intros n self Hrs Hi.
  - simpl. rewrite Nat.add_0_r. done.
  - cbn [replay after_calls length seq fmap list_fmap].
    unfold FakeListLLM._call. cbn [fst FakeListLLM.responses FakeListLLM.i].
    rewrite Hrs, Hi.
    replace (Z.of_nat n - 1 + 1)%Z with (Z.of_nat n) by lia.
    rewrite index_of_nat.
    destruct (IH (S n) {| FakeListLLM.responses := responses;
                          FakeListLLM.i := Z.of_nat n |})
      as (Hreplay & Hafter & Hsame); [done | simpl; lia |].
    rewrite Hreplay, Hafter, Hsame. repeat split; f_equal; lia.
Qed.

(** X16. The fake model gives its responses back in order, one per call,
    whatever the prompts; every call past the end of the list raises
    [IndexError]; the counter has moved by one per call, failed or not. *)
Theorem fake_model_replays (responses prompts : list string) :
  replay (FakeListLLM.new responses) prompts
  = response_at responses <$> seq 0 (length prompts)
  ∧ FakeListLLM.i (after_calls (FakeListLLM.new responses) prompts)
    = (Z.of_nat (length prompts) - 1)%Z
  ∧ FakeListLLM.responses (after_calls (FakeListLLM.new responses) prompts)
    = responses.
Proof. by apply (replay_from responses prompts 0). Qed.

End FakeModel.

(** ** More edges: the first offender, shared prompts, what is returned *)

Section MoreEdges.

Lemma single_io_check_prefix cs1 cs2 :
  (∀ c, c ∈ cs1 → length (input_keys c) = 1 ∧ length (output_keys c) = 1) →
  SimpleSequentialChain.check_chains (cs1 ++ cs2)
  = SimpleSequentialChain.check_chains cs2.
Proof.
  induction cs1 as [|c cs1 IH]; intros Hall; [done|]. simpl.
  destruct (Hall c) as [Hin Hout]; [apply list_elem_of_here|].
  repeat case_decide; try done.
  apply IH. intros c' Hc'. by apply Hall, list_elem_of_further.
Qed.

(** X17. Construction of the single-I/O chain blames the first sub-chain
    that is not single-I/O: its number of input keys is reported when that is
    not one, and only otherwise its number of output keys. *)
Theorem single_io_first_offender (values : SimpleSequentialChain.t)
    (cs1 cs2 : list Chain) (c : Chain) :
  SimpleSequentialChain.chains values = cs1 ++ c :: cs2 →
  (∀ c', c' ∈ cs1 →
     length (input_keys c') = 1 ∧ length (output_keys c') = 1) →
  (length (input_keys c) ≠ 1 →
   SimpleSequentialChain.validate_chains values
   = Err (ValueError (NotOneInput (length (input_keys c)))))
  ∧ (length (input_keys c) = 1 → length (output_keys c) ≠ 1 →
     SimpleSequentialChain.validate_chains values
     = Err (ValueError (NotOneOutput (length (output_keys c))))).
Proof.
  intros Hcs Hall. unfold SimpleSequentialChain.validate_chains.
  rewrite Hcs, (single_io_check_prefix _ _ Hall). simpl.
  split; [intros Hin | intros Hin Hout]; repeat case_decide; done.
Qed.

Lemma single_io_first_offender_witness :
  SimpleSequentialChain.validate_chains
    (simple [text_chain strip; two_inputs_chain; declared_chain ["a"] []]
       false false)
  = Err (ValueError (NotOneInput 2)).
Proof.
  apply (proj1 (single_io_first_offender
                  (simple [text_chain strip; two_inputs_chain;
                           declared_chain ["a"] []] false false)
                  [text_chain strip] [declared_chain ["a"] []]
                  two_inputs_chain eq_refl
                  ltac:(intros c' ->%list_elem_of_singleton; done))).
  simpl. lia.
Defined.

Import SequentailChainWithPreviousContext.

(** The turn at position [i] takes the state before it to the state after
    it. *)
Lemma state_before_S cs ss : ∀ σ i c s,
  cs !! i = Some c → ss !! i = Some s →
  state_before cs ss σ (S i) = after c s (state_before cs ss σ i).
Proof.
  revert ss. induction cs as [|c0 cs IH]; intros ss σ i c s Hc Hs; [done|].
  destruct ss as [|s0 ss]; [done|].
  destruct i as [|i]; simpl in *.
  - injection Hc as <-. injection Hs as <-. by destruct cs, ss.
  - destruct cs as [|c1 cs]; [done|]. destruct ss as [|s1 ss]; [done|].
    apply (IH (s1 :: ss) (after c0 s0 σ) i c s Hc Hs).
Qed.

(** X18. When two consecutive steps share one prompt object, the template
    of the second is its running context prepended to the template the
    first ran with, so the first step's context and template are carried
    into it a second time. *)
Theorem shared_prompt_nests_templates (self : t)
    (inputs : gmap string string) (σ : state) (i : nat) (c c' : LLMChain)
    (s s' : step) :
  chains self !! i = Some c → chains self !! S i = Some c' →
  prompt c = prompt c' →
  steps (_call self inputs σ).2.1 !! i = Some s →
  steps (_call self inputs σ).2.1 !! S i = Some s' →
  step_template s'
  = (step_prompt s +:+ step_response s) +:+ step_template s.
Proof.
  intros Hc Hc' Hshare Hs Hs'.
  assert (turns (chains self) σ (steps (_call self inputs σ).2.1)) as Hturns
    by (rewrite call_steps; apply run_chains_turns).
  destruct (turns_at _ _ _ Hturns (S i) s' Hs') as (c0 & Hc0 & Ht & _).
  rewrite Hc' in Hc0. injection Hc0 as <-. rewrite Ht.
  rewrite (state_before_S _ _ σ i c s Hc Hs). unfold step_context, step_base.
  simpl. by rewrite <- Hshare, fn_lookup_insert.
Qed.

Lemma shared_prompt_nests_templates_witness :
  ∃ s s',
    steps (_call sharing_chain ∅ fresh).2.1 !! 0 = Some s
    ∧ steps (_call sharing_chain ∅ fresh).2.1 !! 1 = Some s'
    ∧ step_template s = "Finally: "
    ∧ step_template s'
      = (step_prompt s +:+ step_response s) +:+ step_template s
    ∧ step_template s' = "Finally: yes.Finally: ".
Proof.
  destruct (steps (_call sharing_chain ∅ fresh).2.1 !! 0) as [s|] eqn:Hs;
    [|vm_compute in Hs; discriminate Hs].
  destruct (steps (_call sharing_chain ∅ fresh).2.1 !! 1) as [s'|] eqn:Hs';
    [|vm_compute in Hs'; discriminate Hs'].
  exists s, s'. split; [done|]. split; [done|].
  pose proof (shared_prompt_nests_templates sharing_chain ∅ fresh 0
                (answering 2 "a1" "yes.") (answering 2 "a2" "no.") s s'
                eq_refl eq_refl eq_refl Hs Hs') as Hnest.
  vm_compute in Hs, Hs'. injection Hs as <-. injection Hs' as <-.
  split; [reflexivity|]. split; [exact Hnest | reflexivity].
Defined.

(** X19. A call of the context-accumulating chain that returns has given
    every sub-chain one turn and returns exactly the output variables of the
    object. *)
Theorem context_call_returns_outputs (self : t) (inputs : gmap string string)
    (σ σ' : state) (log : list event) (result : gmap string string) :
  _call self inputs σ = (σ', (log, Ok result)) →
  length (steps log) = length (chains self)
  ∧ dom result = set_of (output_variables self).
Proof.
  intros Hcall. unfold _call, bind, try, lift in Hcall.
  destruct (run_chains self 0 (chains self) inputs σ)
    as [σ1 [log1 [final|e1]]] eqn:Hrun; [|done].
  destruct (select_keys final (output_variables self)) as [picked|e] eqn:Hsel;
    simpl in Hcall; [|done].
  injection Hcall as <- <- <-. rewrite (right_id_L [] (++)). split.
  - apply run_chains_completes in Hrun. by eapply completes_length.
  - by apply select_keys_lookup in Hsel as [Hdom _].
Qed.

Lemma context_call_returns_outputs_witness :
  length (steps (_call example_chain {[ "q" := "why" ]} fresh).2.1) = 3
  ∧ dom ({[ "a3" := "done." ]} : gmap string string) = set_of ["a3"].
Proof.
  destruct (_call example_chain {[ "q" := "why" ]} fresh)
    as [σ' [log r]] eqn:Hcall.
  assert (r = Ok {[ "a3" := "done." ]}) as ->.
  { pose proof (f_equal (λ x, x.2.2) Hcall) as H. simpl in H. rewrite <- H.
    vm_compute. reflexivity. }
  apply (context_call_returns_outputs _ _ _ _ _ _ Hcall).
Defined.

End MoreEdges.

(** ** The context is rendered again *)

Section RenderedAgain.
Import SequentailChainWithPreviousContext.

(** C9. The class promises [A -> AB -> ABC -> ABCD]: the running context
    of a step should be the concatenation of what each earlier step rendered
    and what it was answered.  The code does not keep that when a response
    holds a placeholder.  With the templates [Ask {q}? ], [Then {q}? ] and
    [Finally: ], the input [q = why] and the first response [{q}], line 159
    renders the second step's template, which by then starts with the first
    response, so that response is replaced by [why]: the third step runs
    with [Ask why? whyThen why? no.Finally: ], which is not the concatenation
    [Ask why? {q}Then why? no.] prepended to [Finally: ], and in which the
    first response does not occur at all. *)
Theorem context_is_rendered_again :
  steps (_call placeholder_chain {[ "q" := "why" ]} placeholder_fresh).2.1
  = placeholder_steps
  ∧ ∃ s0 s1 s2,
      placeholder_steps = [s0; s1; s2]
      ∧ step_response s0 = "{q}"
      ∧ accumulated placeholder_own [s0; s1] = "Ask why? {q}Then why? no."
      ∧ step_template s2 = "Ask why? whyThen why? no.Finally: "
      ∧ step_template s2
        ≠ accumulated placeholder_own [s0; s1]
          +:+ step_base placeholder_fresh (answering 2 "a3" "done.")
      ∧ String.index 0 (step_response s0) (step_template s2) = None.
Proof.
  split; [vm_compute; reflexivity|].
  do 3 eexists. split; [reflexivity|]. split; [reflexivity|].
  split; [vm_compute; reflexivity|]. split; [reflexivity|].
  split; [|vm_compute; reflexivity].
  vm_compute. discriminate.
Qed.

End RenderedAgain.
